(** * Male name generator: the notebook's encoding, preparation and generation code

    A shallow embedding of [src/main-name-generator.ipynb].

    Conventions of the embedding:
    - a Python [str] is the list of its Unicode code points ([Z], as [ord]
      gives them), so that the accented letters of the alphabet are single
      symbols as they are in Python;
    - a one-dimensional numpy array is a [list Z], a two-dimensional one the
      list of its rows;
    - a Python [dict] is a [gmap], built by inserting the pairs from left to
      right as [dict(zip(..))] does;
    - a Python exception is a value [Raise e] of the result type [res]. *)

From Stdlib Require Import ZArith List Lia.
From stdpp Require Import base option list gmap.

Local Open Scope Z_scope.

(** ** Exceptions and results *)

Inductive exn : Type :=
  | KeyError        (* a dict subscript with a missing key *)
  | IndexError      (* an array subscript out of bounds *)
  | ValueError.     (* a library call refusing its argument *)

Inductive res (A : Type) : Type :=
  | Ok (a : A)
  | Raise (e : exn).
Arguments Ok {A} a.
Arguments Raise {A} e.

Definition res_bind {A B : Type} (r : res A) (k : A -> res B) : res B :=
  match r with
  | Ok a => k a
  | Raise e => Raise e
  end.

Notation "'do' x <- r ; k" := (res_bind r (fun x => k))
  (at level 10, x pattern, r at level 100, k at level 200).

(** ** Python and numpy primitives used by the notebook *)

(** [len(l)] *)
Definition len {A : Type} (l : list A) : Z := Z.of_nat (length l).

(** [range(a, b)] *)
Definition py_range (a b : Z) : list Z := seqZ a (b - a).

(** [dict(pairs)]: later pairs overwrite earlier ones. *)
Definition py_dict {V : Type} (pairs : list (Z * V)) : gmap Z V :=
  foldl (fun d kv => <[kv.1 := kv.2]> d) ∅ pairs.

(** [d[k]] *)
Definition py_getitem {V : Type} (d : gmap Z V) (k : Z) : res V :=
  match d !! k with
  | Some v => Ok v
  | None => Raise KeyError
  end.

(** [np.zeros((k, features))]: a negative dimension is refused. *)
Definition np_zeros2 (k : nat) (features : Z) : res (list (list Z)) :=
  if features <? 0 then Raise ValueError
  else Ok (replicate k (replicate (Z.to_nat features) 0)).

(** The position an index [pos] designates along an axis of size [size]:
    numpy counts a negative index from the end and refuses anything outside
    [-size, size). *)
Definition np_index (size : Z) (pos : Z) : res nat :=
  if (0 <=? pos) && (pos <? size) then Ok (Z.to_nat pos)
  else if (- size <=? pos) && (pos <? 0) then Ok (Z.to_nat (pos + size))
  else Raise IndexError.

(** [a[i, pos] = v] for [i] taken from [range(len(a))] *)
Definition np_setitem2 (a : list (list Z)) (i : nat) (pos : Z) (v : Z) : res (list (list Z)) :=
  match a !! i with
  | None => Raise IndexError
  | Some row =>
      do p <- np_index (len row) pos;
      Ok (<[i := <[p := v]> row]> a)
  end.

(** [np.argmax(row)]: the first position holding the largest entry.  The scan
    keeps the best entry seen so far and replaces it only by an entry [v]
    with [gt v best].  [gt] is the order of the entries: [Z.gtb] for integer
    rows, numpy's order of floats (in which a NaN is above every number) for
    the rows a model predicts. *)
Fixpoint argmax_scan {A : Type} (gt : A -> A -> bool)
    (best : A) (besti : nat) (i : nat) (row : list A) : nat :=
  match row with
  | [] => besti
  | v :: row' =>
      if gt v best then argmax_scan gt v i (S i) row'
      else argmax_scan gt best besti (S i) row'
  end.

Definition np_argmax {A : Type} (gt : A -> A -> bool) (row : list A) : res Z :=
  match row with
  | [] => Raise ValueError
  | v :: row' => Ok (Z.of_nat (argmax_scan gt v 0 1 row'))
  end.

(** ** Mappings *)

Definition standard_chars : list Z := py_range 97 123.   (* 'a' .. 'z' *)

(** 'à' 'á' 'è' 'é' 'í' 'ò' 'ó' 'ú' 'ñ' 'ç' "'" '.' ' ' *)
Definition special_chars : list Z :=
  [224; 225; 232; 233; 237; 242; 243; 250; 241; 231; 39; 46; 32].

Definition chars : list Z := standard_chars ++ special_chars.

Definition seq : list Z := py_range 0 (len chars).

Definition map_char_to_int : gmap Z Z := py_dict (zip chars seq).
Definition map_int_to_char : gmap Z Z := py_dict (zip seq chars).

(** The dot, the end marker of a name. *)
Definition DOT : Z := 46.

(** ** Auxiliary functions for mapping *)

(** The [for i in range(k)] loop of [one_hot_encoding], at row [i] with the
    indices from [i] on still to place. *)
Fixpoint one_hot_rows (word_int : list Z) (i : nat) (word_encoded : list (list Z))
    : res (list (list Z)) :=
  match word_int with
  | [] => Ok word_encoded
  | pos :: rest =>
      do word_encoded' <- np_setitem2 word_encoded i pos 1;
      one_hot_rows rest (S i) word_encoded'
  end.

Definition one_hot_encoding (word_int : list Z) (features : Z) : res (list (list Z)) :=
  let k := length word_int in
  do word_encoded <- np_zeros2 k features;
  one_hot_rows word_int 0 word_encoded.

(** [one_hot_decoding]: [np.argmax] of every row. *)
Fixpoint one_hot_decoding (word_encoded : list (list Z)) : res (list Z) :=
  match word_encoded with
  | [] => Ok []
  | row :: rows =>
      do pos <- np_argmax Z.gtb row;
      do word_int <- one_hot_decoding rows;
      Ok (pos :: word_int)
  end.

(** [encode_word_to_int]: [mapping[c]] for every character, in order.  The
    indices are stored in an [int32] array; the alphabet's indices are far
    below its range. *)
Fixpoint encode_word_to_int (word : list Z) (mapping : gmap Z Z) : res (list Z) :=
  match word with
  | [] => Ok []
  | c :: word' =>
      do v <- py_getitem mapping c;
      do word_int <- encode_word_to_int word' mapping;
      Ok (v :: word_int)
  end.

(** The string 'UNK'. *)
Definition UNK : list Z := [85; 78; 75].

(** [decode_int_to_word]: a known index adds its character, any other adds
    'UNK'. *)
Definition decode_int_to_word (word_int : list Z) (mapping : gmap Z Z) : list Z :=
  foldl (fun word i =>
           match mapping !! i with
           | Some ch => word ++ [ch]
           | None => word ++ UNK
           end) [] word_int.

(** ** Load and map data, padding *)

(** A list comprehension, or an appending loop, whose body may raise. *)
Fixpoint res_map {A B : Type} (f : A -> res B) (l : list A) : res (list B) :=
  match l with
  | [] => Ok []
  | a :: l' =>
      do b <- f a;
      do bs <- res_map f l';
      Ok (b :: bs)
  end.

(** [max(names, key=len)]: the first name of the greatest length; an empty
    list is refused. *)
Fixpoint max_scan (best : list Z) (names : list (list Z)) : list Z :=
  match names with
  | [] => best
  | name :: names' =>
      if len name >? len best then max_scan name names'
      else max_scan best names'
  end.

Definition py_max_len (names : list (list Z)) : res (list Z) :=
  match names with
  | [] => Raise ValueError
  | name :: names' => Ok (max_scan name names')
  end.

(** [a + b] on one-dimensional arrays (a list operand is turned into an
    array first): entry by entry, an operand of length one being stretched
    over the other. *)
Definition np_add (a b : list Z) : res (list Z) :=
  if (length a =? length b)%nat then Ok (zip_with Z.add a b)
  else match a, b with
       | [x], _ => Ok (map (fun y => x + y) b)
       | _, [y] => Ok (map (fun x => x + y) a)
       | _, _ => Raise ValueError
       end.

(** [np.concatenate((a, b), axis = 0)]: the rows of [a], then those of [b];
    the rows must be equally wide. *)
Definition np_concatenate0 (a b : list (list Z)) : res (list (list Z)) :=
  match a, b with
  | ra :: _, rb :: _ =>
      if (length ra =? length rb)%nat then Ok (a ++ b) else Raise ValueError
  | _, _ => Ok (a ++ b)
  end.

(** *** Keras' [pad_sequences]

    [tf.keras.preprocessing.sequence.pad_sequences] as Keras defines it, at
    the arguments the notebook passes: [padding = 'post'],
    [truncating = 'post'], [value = 0].  The result has shape
    [(num_samples, maxlen) + sample_shape], where [sample_shape] is the
    shape of the entries of the first sequence that is not empty, and is
    [()] when every sequence is empty. *)

Inductive padded : Type :=
  | Padded2 (x : list (list Z))           (* shape (num_samples, maxlen) *)
  | Padded3 (x : list (list (list Z))).   (* shape (num_samples, maxlen, features) *)

Fixpoint sample_shape (sequences : list (list (list Z))) : option nat :=
  match sequences with
  | [] => None
  | [] :: rest => sample_shape rest
  | (row :: _) :: _ => Some (length row)
  end.

(** One row [x[idx]] of the result: an empty sequence leaves it filled with
    the value; another one is cut after [maxlen] entries, checked against the
    sample shape and written at the start of the row. *)
Definition pad_one (maxlen : nat) (features : nat) (s : list (list Z))
    : res (list (list Z)) :=
  match s with
  | [] => Ok (replicate maxlen (replicate features 0))
  | _ :: _ =>
      let trunc := take maxlen s in
      if forallb (fun row => (length row =? features)%nat) s
      then Ok (trunc ++ replicate (maxlen - length trunc) (replicate features 0))
      else Raise ValueError
  end.

Definition pad_sequences (sequences : list (list (list Z))) (maxlen : Z) : res padded :=
  if maxlen <? 0 then Raise ValueError
  else
    match sample_shape sequences with
    | None => Ok (Padded2 (replicate (length sequences) (replicate (Z.to_nat maxlen) 0)))
    | Some features =>
        do x <- res_map (pad_one (Z.to_nat maxlen) features) sequences;
        Ok (Padded3 x)
    end.

(** *** The notebook's preparation cells *)

(** [n = len(map_char_to_int)] *)
Definition n : Z := Z.of_nat (size map_char_to_int).

(** Everything the cells up to the padding leave in the notebook's globals. *)
Record prepared : Type := {
  m : Z;
  timesteps : Z;
  X_male : list (list Z);
  y_male : list (list Z);
  X_male_int : list (list Z);
  X_male_encoded : list (list (list Z));
  y_male_int : list (list Z);
  y_male_encoded : list (list (list Z));
  X_male_padded : padded;
  y_male_padded : padded
}.

(** The loop filling [X_male_int] and [X_male_encoded]. *)
Fixpoint encode_names (names : list (list Z))
    : res (list (list Z) * list (list (list Z))) :=
  match names with
  | [] => Ok ([], [])
  | word :: names' =>
      do word_int <- encode_word_to_int word map_char_to_int;
      do word_encoded <- one_hot_encoding word_int n;
      do rest <- encode_names names';
      Ok (word_int :: rest.1, word_encoded :: rest.2)
  end.

Section Preparer.
(** Python's [str.lower]. *)
Variable lower : list Z -> list Z.

Definition prepare (male_names_data : list (list Z)) : res prepared :=
  let m := len male_names_data in
  do longest <- py_max_len male_names_data;
  let timesteps := len longest in
  let male_names_data := map lower male_names_data in
  let X_male := male_names_data in
  let y_male := map (fun name => drop 1 name ++ [DOT]) X_male in
  do encoded <- encode_names X_male;
  let X_male_int := encoded.1 in
  let X_male_encoded := encoded.2 in
  do dot <- py_getitem map_char_to_int DOT;
  do dot_encoded <- one_hot_encoding [dot] n;
  do y_male_int <-
    res_map (fun word_int =>
               do dot <- py_getitem map_char_to_int DOT;
               np_add (drop 1 word_int) [dot]) X_male_int;
  do y_male_encoded <-
    res_map (fun l => np_concatenate0 (drop 1 l) dot_encoded) X_male_encoded;
  do X_male_padded <- pad_sequences X_male_encoded timesteps;
  do y_male_padded <- pad_sequences y_male_encoded timesteps;
  Ok {| m := m; timesteps := timesteps;
        X_male := X_male; y_male := y_male;
        X_male_int := X_male_int; X_male_encoded := X_male_encoded;
        y_male_int := y_male_int; y_male_encoded := y_male_encoded;
        X_male_padded := X_male_padded; y_male_padded := y_male_padded |}.
End Preparer.

(** ** Text generation *)

(** [y[0, -1, :]]: the last row of a prediction. *)
Definition np_last {A : Type} (y : list (list A)) : res (list A) :=
  match last y with
  | Some y_n => Ok y_n
  | None => Raise IndexError
  end.

(** [np.reshape(a, (1, 1, -1))[0]]: all entries of [a] in one row. *)
Definition np_reshape_row (a : list (list Z)) : list (list Z) := [concat a].

(** What a run of a generation cell has come to after a number of turns of
    its [while] loop. *)
Inductive outcome (S : Type) : Type :=
  | Finished (word : list Z)   (* the loop was left; [word] is printed *)
  | Raised (e : exn)           (* a statement raised *)
  | Running (st : S).          (* the loop is still turning *)
Arguments Finished {S} word.
Arguments Raised {S} e.
Arguments Running {S} st.

Section Generator.
(** The trained model: the entries of its outputs are floats [prob],
    compared by [gt]; [predict x] is [model.predict(x)[0]], one row of
    probabilities for every row of the input [x]. *)
Variable prob : Type.
Variable gt : prob -> prob -> bool.
Variable predict : list (list Z) -> list (list prob).

(** numpy's global random generator: [random_choice g a p] is
    [np.random.choice(a, p = p)] in the generator state [g], the element
    drawn and the state left behind; it refuses a [p] that is no
    probability vector over [a]. *)
Variable rng : Type.
Variable random_choice : rng -> list Z -> list prob -> res (Z * rng).

(** The variables of a generation cell. *)
Record gen_state : Type := {
  st_x : list (list Z);     (* x[0] *)
  st_word : list Z;         (* word *)
  st_c : Z;                 (* c *)
  st_rng : rng              (* the random generator's state *)
}.

(** The line that picks [y_n_hat], in either cell. *)
Definition select_stochastic (g : rng) (y_n : list prob) : res (Z * rng) :=
  random_choice g (py_range 0 n) y_n.

Definition select_greedy (g : rng) (y_n : list prob) : res (Z * rng) :=
  do y_n_hat <- np_argmax gt y_n;
  Ok (y_n_hat, g).

(** The body of the [while] loop; the two cells differ in [select] only.
    [x] has shape [(1, t, n)] and is kept as its rows [x[0]], so that
    [np.concatenate((x, y_n_hat_encoded), axis = 1)] adds the new row after
    them. *)
Definition gen_body (select : rng -> list prob -> res (Z * rng))
    (st : gen_state) : res gen_state :=
  let y := predict (st_x st) in
  do y_n <- np_last y;
  do drawn <- select (st_rng st) y_n;
  let y_n_hat := drawn.1 in
  do encoded <- one_hot_encoding [y_n_hat] n;
  let y_n_hat_encoded := np_reshape_row encoded in
  do c <- py_getitem map_int_to_char y_n_hat;
  let word := st_word st ++ [c] in
  do x <- np_concatenate0 (st_x st) y_n_hat_encoded;
  Ok {| st_x := x; st_word := word; st_c := c; st_rng := drawn.2 |}.

(** [while c != '.': body], for at most [fuel] turns. *)
Fixpoint gen_loop (select : rng -> list prob -> res (Z * rng))
    (fuel : nat) (st : gen_state) : outcome gen_state :=
  if st_c st =? DOT then Finished (st_word st)
  else
    match fuel with
    | O => Running st
    | S fuel' =>
        match gen_body select st with
        | Raise e => Raised e
        | Ok st' => gen_loop select fuel' st'
        end
    end.

(** The three assignments before the loop: [x = np.zeros((1, 1, n))],
    [word = ''], [c = '-']. *)
Definition gen_init (g : rng) : res gen_state :=
  do x <- np_zeros2 1 n;
  Ok {| st_x := x; st_word := []; st_c := 45; st_rng := g |}.

Definition generation (select : rng -> list prob -> res (Z * rng))
    (fuel : nat) (g : rng) : outcome gen_state :=
  match gen_init g with
  | Raise e => Raised e
  | Ok st => gen_loop select fuel st
  end.

Definition stochastic_generation : nat -> rng -> outcome gen_state :=
  generation select_stochastic.

Definition greedy_generation : nat -> rng -> outcome gen_state :=
  generation select_greedy.
End Generator.

Arguments st_x {rng} _.
Arguments st_word {rng} _.
Arguments st_c {rng} _.
Arguments st_rng {rng} _.
Arguments gen_body {prob} predict {rng} select st.
Arguments gen_loop {prob} predict {rng} select fuel st.
Arguments gen_init {rng} g.
Arguments generation {prob} predict {rng} select fuel g.
Arguments select_greedy {prob} gt {rng} g y_n.
Arguments select_stochastic {prob rng} random_choice g y_n.
Arguments stochastic_generation {prob} predict {rng} random_choice _ _.
Arguments greedy_generation {prob} gt predict {rng} _ _.

(** ** The list codecs and the performance cells *)

(** [l[i]] on a list, on a string or along the first axis of an array: a
    negative index counts from the end, an index outside is refused. *)
Definition py_item {A : Type} (l : list A) (i : Z) : res A :=
  do p <- np_index (len l) i;
  match l !! p with
  | Some a => Ok a
  | None => Raise IndexError
  end.

(** A [for] loop over [l] that updates the variables [s] and may raise. *)
Fixpoint for_each {S A : Type} (body : S -> A -> res S) (l : list A) (s : S) : res S :=
  match l with
  | [] => Ok s
  | a :: l' =>
      do s' <- body s a;
      for_each body l' s'
  end.

(** [enumerate(l)] *)
Definition enumerate {A : Type} (l : list A) : list (Z * A) :=
  zip (py_range 0 (len l)) l.

(** [one_hot_decoding] on an array of any entries, floats for the arrays a
    model predicts; [gt] is their order, as for [np_argmax]. *)
Fixpoint one_hot_decoding_of {A : Type} (gt : A -> A -> bool)
    (word_encoded : list (list A)) : res (list Z) :=
  match word_encoded with
  | [] => Ok []
  | row :: rows =>
      do pos <- np_argmax gt row;
      do word_int <- one_hot_decoding_of gt rows;
      Ok (pos :: word_int)
  end.

Definition encode_list (array : list (list Z)) (mapping : gmap Z Z)
    : res (list (list (list Z))) :=
  res_map (fun word =>
             do word_int <- encode_word_to_int word mapping;
             one_hot_encoding word_int (Z.of_nat (size mapping))) array.

Definition decode_list {A : Type} (gt : A -> A -> bool)
    (array : list (list (list A))) (mapping : gmap Z Z) : res (list (list Z)) :=
  res_map (fun word_encoded =>
             do word_int <- one_hot_decoding_of gt word_encoded;
             Ok (decode_int_to_word word_int mapping)) array.

(** The loop filling [mask_correct]: for every label, one entry per symbol
    of the label, telling whether the prediction has that symbol there. *)
Definition mask_correct (m : Z) (y_male y_preds : list (list Z)) : res (list bool) :=
  for_each (fun mask i =>
              do label <- py_item y_male i;
              for_each (fun mask jc =>
                          do pred <- py_item y_preds i;
                          do ch <- py_item pred jc.1;
                          Ok (mask ++ [ch =? jc.2]))
                (enumerate label) mask)
    (py_range 0 m) [].

(** [a in b] on strings: [a] occurs in [b], at some offset. *)
Fixpoint starts_with (a b : list Z) : bool :=
  match a, b with
  | [], _ => true
  | _ :: _, [] => false
  | x :: a', y :: b' => (x =? y) && starts_with a' b'
  end.

Fixpoint py_in (a b : list Z) : bool :=
  starts_with a b
  || match b with
     | [] => false
     | _ :: b' => py_in a b'
     end.

(** The loop filling [mask_correct_words], from [np.array([False] * m)]. *)
Definition mask_correct_words (m : Z) (y_male y_preds : list (list Z)) : res (list bool) :=
  for_each (fun mask i =>
              do pred <- py_item y_preds i;
              do label <- py_item y_male i;
              let orig := take (length label - 1) label in
              do p <- np_index (len mask) i;
              Ok (<[p := py_in orig pred]> mask))
    (py_range 0 m) (replicate (Z.to_nat m) false).

(** ** Vocabulary of the statements *)

(** The one-hot vector of width [features] for the index [pos]: zero
    everywhere but for a one at [pos]. *)
Definition one_hot_vector (features : Z) (pos : Z) : list Z :=
  <[Z.to_nat pos := 1]> (replicate (Z.to_nat features) 0).

(** An all-zero row, as padding adds them. *)
Definition zero_row (features : Z) : list Z := replicate (Z.to_nat features) 0.

(** [p] is the position of the greatest entry of [row], and the lowest such
    position. *)
Definition first_max (row : list Z) (p : nat) : Prop :=
  exists v, row !! p = Some v
    /\ (forall j w, row !! j = Some w -> w <= v)
    /\ (forall j w, (j < p)%nat -> row !! j = Some w -> w < v).

(** The target the notebook describes for a name: the name without its first
    symbol, followed by the dot. *)
Definition shifted {A : Type} (dot : A) (l : list A) : list A := drop 1 l ++ [dot].

(** The one-hot rows of the indices [word_int], followed by the all-zero
    rows that bring them to [T] rows. *)
Definition right_padded (T : nat) (word_int : list Z) : list (list Z) :=
  map (one_hot_vector n) word_int ++ replicate (T - length word_int) (zero_row n).

(** What one index contributes to a decoded word. *)
Definition decode_symbol (mapping : gmap Z Z) (i : Z) : list Z :=
  match mapping !! i with
  | Some ch => [ch]
  | None => UNK
  end.

(** The word of a state ends with the current symbol (or is still empty),
    and holds no dot before it. *)
Definition word_invariant {rng : Type} (st : gen_state rng) : Prop :=
  (st_word st = [] /\ st_c st <> DOT)
  \/ (exists w, st_word st = w ++ [st_c st] /\ DOT ∉ w).

(** Two generation cells are at the same point: their variables [x], [word]
    and [c] are equal, and their random generators are in states that [R]
    relates. *)
Definition same_state {rng1 rng2 : Type} (R : rng1 -> rng2 -> Prop)
    (s1 : gen_state rng1) (s2 : gen_state rng2) : Prop :=
  st_x s1 = st_x s2 /\ st_word s1 = st_word s2 /\ st_c s1 = st_c s2
  /\ R (st_rng s1) (st_rng s2).

(** Two runs have come to the same: the same word printed, the same
    exception raised, or both still going on at the same point. *)
Definition same_outcome {rng1 rng2 : Type} (R : rng1 -> rng2 -> Prop)
    (o1 : outcome (gen_state rng1)) (o2 : outcome (gen_state rng2)) : Prop :=
  match o1, o2 with
  | Finished w1, Finished w2 => w1 = w2
  | Raised e1, Raised e2 => e1 = e2
  | Running s1, Running s2 => same_state R s1 s2
  | _, _ => False
  end.

(** Two results of a call agree: the same value and states that [R]
    relates, or the same exception. *)
Definition same_result {rng1 rng2 : Type} (R : rng1 -> rng2 -> Prop)
    (r1 : res (Z * rng1)) (r2 : res (Z * rng2)) : Prop :=
  match r1, r2 with
  | Ok d1, Ok d2 => d1.1 = d2.1 /\ R d1.2 d2.2
  | Raise e1, Raise e2 => e1 = e2
  | _, _ => False
  end.

(** Two random sources are the same source, as far as their draws tell:
    from states that [R] relates they draw the same element and go to states
    that [R] relates, or refuse alike.  One generator seeded twice alike is
    the case of [R] the equality. *)
Definition same_draws {prob rng1 rng2 : Type} (R : rng1 -> rng2 -> Prop)
    (random_choice1 : rng1 -> list Z -> list prob -> res (Z * rng1))
    (random_choice2 : rng2 -> list Z -> list prob -> res (Z * rng2)) : Prop :=
  forall g1 g2 a p, R g1 g2 ->
    same_result R (random_choice1 g1 a p) (random_choice2 g2 a p).

(** The symbol at position [k] of [word] is the one [pick] yields on the
    model's prediction for the symbols before it: the last row predicted for
    the all-zero row followed by the one-hot rows of the first [k] symbols. *)
Definition picked_at {prob : Type} (predict : list (list Z) -> list (list prob))
    (pick : list prob -> Z -> Prop) (word : list Z) (k : nat) (ch : Z) : Prop :=
  exists word_int y_n i,
    encode_word_to_int (take k word) map_char_to_int = Ok word_int
    /\ np_last (predict (zero_row n :: map (one_hot_vector n) word_int)) = Ok y_n
    /\ pick y_n i
    /\ map_int_to_char !! i = Some ch.

(** ** Small models to run the generation cells on

    Their outputs are integer scores compared by [Z.gtb]; the random
    generator of the stochastic runs is a script of the draws to come. *)

(** A model that always scores 'a' highest. *)
Definition always_a (x : list (list Z)) : list (list Z) :=
  map (fun _ => one_hot_vector n 0) x.

(** A model that spells "ab.": it scores 'a' highest after the empty input,
    'b' after one symbol and the dot from then on. *)
Definition spell_ab (x : list (list Z)) : list (list Z) :=
  map (fun _ => match length x with
                | 1%nat => one_hot_vector n 0
                | 2%nat => one_hot_vector n 1
                | _ => one_hot_vector n 37
                end) x.

(** A random generator that hands out the scripted draws in order. *)
Definition scripted_choice (g : list Z) (a : list Z) (p : list Z) : res (Z * list Z) :=
  match g with
  | [] => Raise ValueError
  | d :: g' => Ok (d, g')
  end.

(** ** The mappings are inverse bijections between [chars] and [0 .. 38] *)

Arguments map_char_to_int : simpl never.
Arguments map_int_to_char : simpl never.
Arguments n : simpl never.

Lemma py_dict_fold_lookup {V : Type} (pairs : list (Z * V)) (d : gmap Z V) (k : Z) :
  foldl (fun d kv => <[kv.1 := kv.2]> d) d pairs !! k
  = match list_to_map (M := gmap Z V) (reverse pairs) !! k with
    | Some v => Some v
    | None => d !! k
    end.
Proof.
  revert d. induction pairs as [|[k' v'] pairs IH]; intros d; simpl.
  - by rewrite lookup_empty.
  - rewrite IH, reverse_cons.
    destruct (list_to_map (reverse pairs) !! k) as [v|] eqn:E.
    + assert (list_to_map (M := gmap Z V) (reverse pairs ++ [(k', v')]) !! k = Some v) as ->; [|done].
      rewrite list_to_map_app. by apply lookup_union_Some_l.
    + rewrite list_to_map_app, lookup_union_r by done. simpl.
      rewrite !lookup_insert. case_decide; [done|]. by rewrite lookup_empty.
Qed.

Lemma py_dict_lookup {V : Type} (pairs : list (Z * V)) (k : Z) (v : V) :
  NoDup pairs.*1 -> py_dict pairs !! k = Some v <-> (k, v) ∈ pairs.
Proof.
  intros Hnd. unfold py_dict. rewrite py_dict_fold_lookup, lookup_empty.
  assert (NoDup (reverse pairs).*1) as Hnd'.
  { rewrite fmap_reverse. by rewrite reverse_Permutation. }
  rewrite <- (elem_of_reverse (k, v) pairs).
  rewrite (elem_of_list_to_map (M := gmap Z)) by done.
  destruct (list_to_map (reverse pairs) !! k); naive_solver.
Qed.

Lemma seq_lookup (i : nat) :
  (i < 39)%nat -> seq !! i = Some (Z.of_nat i).
Proof.
  intros Hi. unfold seq, py_range.
  rewrite lookup_seqZ. split; [lia|]. change (len chars) with 39. lia.
Qed.

Lemma chars_length : length chars = 39%nat.
Proof. reflexivity. Qed.

Lemma seq_length : length seq = 39%nat.
Proof. reflexivity. Qed.

Lemma chars_NoDup : NoDup chars.
Proof. apply (bool_decide_unpack _). by vm_compute. Qed.

Lemma seq_NoDup : NoDup seq.
Proof. apply NoDup_seqZ. Qed.

Lemma elem_of_zip_chars_seq (ch i : Z) :
  (ch, i) ∈ zip chars seq <-> 0 <= i /\ chars !! Z.to_nat i = Some ch.
Proof.
  rewrite list_elem_of_lookup. split.
  - intros [j Hj]. apply lookup_zip_with_Some in Hj as (a & b & [= <- <-] & Ha & Hb).
    assert (j < 39)%nat by (apply lookup_lt_Some in Ha; by rewrite chars_length in Ha).
    rewrite seq_lookup in Hb by done. injection Hb as <-.
    split; [lia|]. by rewrite Nat2Z.id.
  - intros [Hi Hch]. exists (Z.to_nat i).
    assert (Z.to_nat i < 39)%nat by (apply lookup_lt_Some in Hch; by rewrite chars_length in Hch).
    apply lookup_zip_with_Some. exists ch, i. split_and!; [done|done|].
    rewrite seq_lookup by done. f_equal. lia.
Qed.

Lemma elem_of_zip_seq_chars (ch i : Z) :
  (i, ch) ∈ zip seq chars <-> 0 <= i /\ chars !! Z.to_nat i = Some ch.
Proof.
  rewrite <- elem_of_zip_chars_seq, !list_elem_of_lookup.
  split; intros [j Hj]; exists j;
    apply lookup_zip_with_Some in Hj as (a & b & [= <- <-] & Ha & Hb);
    apply lookup_zip_with_Some; eauto.
Qed.

Lemma map_char_to_int_lookup (ch i : Z) :
  map_char_to_int !! ch = Some i <-> 0 <= i /\ chars !! Z.to_nat i = Some ch.
Proof.
  unfold map_char_to_int. rewrite py_dict_lookup; [apply elem_of_zip_chars_seq|].
  rewrite fst_zip; [apply chars_NoDup|]. by rewrite chars_length, seq_length.
Qed.

Lemma map_int_to_char_lookup (ch i : Z) :
  map_int_to_char !! i = Some ch <-> 0 <= i /\ chars !! Z.to_nat i = Some ch.
Proof.
  unfold map_int_to_char. rewrite py_dict_lookup; [apply elem_of_zip_seq_chars|].
  rewrite fst_zip; [apply seq_NoDup|]. by rewrite chars_length, seq_length.
Qed.

Lemma map_int_to_char_None (i : Z) :
  map_int_to_char !! i = None <-> i < 0 \/ 39 <= i.
Proof.
  rewrite eq_None_not_Some. unfold is_Some.
  split.
  - intros Hn. destruct (decide (0 <= i < 39)) as [Hi|]; [|lia].
    exfalso. apply Hn.
    destruct (lookup_lt_is_Some_2 chars (Z.to_nat i)) as [ch Hch].
    { rewrite chars_length. lia. }
    exists ch. apply map_int_to_char_lookup. split; [lia|done].
  - intros Hi [ch Hch]. apply map_int_to_char_lookup in Hch as [? Hch].
    apply lookup_lt_Some in Hch. rewrite chars_length in Hch. lia.
Qed.

Lemma mappings_inverse (ch i : Z) :
  map_char_to_int !! ch = Some i <-> map_int_to_char !! i = Some ch.
Proof. by rewrite map_char_to_int_lookup, map_int_to_char_lookup. Qed.

Lemma map_char_to_int_is_Some (ch : Z) :
  ch ∈ chars -> exists i, map_char_to_int !! ch = Some i /\ 0 <= i < 39.
Proof.
  intros [j Hj]%list_elem_of_lookup. exists (Z.of_nat j).
  assert (j < 39)%nat by (apply lookup_lt_Some in Hj; by rewrite chars_length in Hj).
  split; [|lia]. apply map_char_to_int_lookup. rewrite Nat2Z.id. split; [lia|done].
Qed.

(** ** Encoding and decoding words *)

Lemma decode_fold (mapping : gmap Z Z) (word_int : list Z) (word : list Z) :
  foldl (fun word i =>
           match mapping !! i with
           | Some ch => word ++ [ch]
           | None => word ++ UNK
           end) word word_int
  = word ++ concat (map (decode_symbol mapping) word_int).
Proof.
  revert word. induction word_int as [|i word_int IH]; intros word; simpl.
  - by rewrite app_nil_r.
  - rewrite IH. unfold decode_symbol.
    destruct (mapping !! i); by rewrite <- app_assoc.
Qed.

Lemma decode_pointwise (mapping : gmap Z Z) (word_int : list Z) :
  decode_int_to_word word_int mapping = concat (map (decode_symbol mapping) word_int).
Proof. unfold decode_int_to_word. by rewrite decode_fold. Qed.

Lemma decode_app (mapping : gmap Z Z) (l1 l2 : list Z) :
  decode_int_to_word (l1 ++ l2) mapping
  = decode_int_to_word l1 mapping ++ decode_int_to_word l2 mapping.
Proof. by rewrite !decode_pointwise, map_app, concat_app. Qed.

Lemma decode_cons (mapping : gmap Z Z) (i : Z) (l : list Z) :
  decode_int_to_word (i :: l) mapping
  = decode_symbol mapping i ++ decode_int_to_word l mapping.
Proof. by rewrite !decode_pointwise. Qed.

Lemma encode_Ok (mapping : gmap Z Z) (word word_int : list Z) :
  encode_word_to_int word mapping = Ok word_int
  <-> Forall2 (fun ch i => mapping !! ch = Some i) word word_int.
Proof.
  revert word_int. induction word as [|ch word IH]; intros word_int; simpl.
  - split; [intros [= <-]; constructor | by intros ->%Forall2_nil_inv_l].
  - unfold py_getitem. destruct (mapping !! ch) as [i|] eqn:E; simpl.
    + destruct (encode_word_to_int word mapping) as [l|e] eqn:El; simpl.
      * split.
        -- intros [= <-]. constructor; [done|]. by apply IH.
        -- intros (i' & l' & Hi & Hl & ->)%Forall2_cons_inv_l.
           apply IH in Hl. congruence.
      * split; [done|].
        intros (i' & l' & Hi & Hl & ->)%Forall2_cons_inv_l.
        apply IH in Hl. congruence.
    + split; [done|].
      intros (i' & l' & Hi & Hl & ->)%Forall2_cons_inv_l. congruence.
Qed.

Lemma encode_app (mapping : gmap Z Z) (w1 w2 : list Z) :
  encode_word_to_int (w1 ++ w2) mapping
  = do l1 <- encode_word_to_int w1 mapping;
    do l2 <- encode_word_to_int w2 mapping;
    Ok (l1 ++ l2).
Proof.
  induction w1 as [|ch w1 IH]; simpl.
  - by destruct (encode_word_to_int w2 mapping).
  - destruct (py_getitem mapping ch); simpl; [|done].
    rewrite IH. destruct (encode_word_to_int w1 mapping); simpl; [|done].
    by destruct (encode_word_to_int w2 mapping).
Qed.

Lemma encode_chars (word : list Z) :
  Forall (fun ch => ch ∈ chars) word ->
  exists word_int,
    encode_word_to_int word map_char_to_int = Ok word_int
    /\ length word_int = length word
    /\ Forall (fun i => 0 <= i < 39) word_int
    /\ decode_int_to_word word_int map_int_to_char = word.
Proof.
  induction 1 as [|ch word Hch _ (word_int & He & Hlen & Hr & Hd)].
  - exists []. by repeat split.
  - destruct (map_char_to_int_is_Some ch Hch) as (i & Hi & Hr').
    exists (i :: word_int). cbn [encode_word_to_int length]. unfold py_getitem. rewrite Hi, He. cbn [res_bind].
    split_and!; [done|by rewrite Hlen|by constructor|].
    rewrite decode_cons, Hd. unfold decode_symbol.
    apply mappings_inverse in Hi. by rewrite Hi.
Qed.

Lemma decode_indices (word_int : list Z) :
  Forall (fun i => 0 <= i < 39) word_int ->
  exists word,
    decode_int_to_word word_int map_int_to_char = word
    /\ Forall (fun ch => ch ∈ chars) word
    /\ encode_word_to_int word map_char_to_int = Ok word_int.
Proof.
  induction 1 as [|i word_int Hi _ (word & Hd & Hch & He)].
  - exists []. by repeat split.
  - destruct (lookup_lt_is_Some_2 chars (Z.to_nat i)) as [ch Hlk].
    { rewrite chars_length. lia. }
    assert (map_int_to_char !! i = Some ch) as Hm.
    { apply map_int_to_char_lookup. split; [lia|done]. }
    exists (ch :: word). rewrite decode_cons, Hd. unfold decode_symbol. rewrite Hm.
    split_and!; [done| |].
    + constructor; [|done]. apply list_elem_of_lookup. eauto.
    + cbn [encode_word_to_int]. unfold py_getitem. apply mappings_inverse in Hm. by rewrite Hm, He.
Qed.

(** C5: the character/index codec is a round trip.  The alphabet has 39
    distinct symbols; every symbol [s] of it encodes to an index that decodes
    back to [s], every index [i] of [0 .. 38] decodes to a symbol that encodes
    back to [i]; and both word functions work symbol by symbol: they commute
    with concatenation, so that no symbol's image depends on its neighbours,
    and the round trips hold for whole words. *)
Theorem codec_round_trip :
  (length chars = 39%nat /\ NoDup chars)
  /\ (forall s, s ∈ chars ->
        exists i, 0 <= i < 39
          /\ encode_word_to_int [s] map_char_to_int = Ok [i]
          /\ decode_int_to_word [i] map_int_to_char = [s])
  /\ (forall i, 0 <= i < 39 ->
        exists s, s ∈ chars
          /\ decode_int_to_word [i] map_int_to_char = [s]
          /\ encode_word_to_int [s] map_char_to_int = Ok [i])
  /\ (forall w1 w2,
        encode_word_to_int (w1 ++ w2) map_char_to_int
        = do l1 <- encode_word_to_int w1 map_char_to_int;
          do l2 <- encode_word_to_int w2 map_char_to_int;
          Ok (l1 ++ l2))
  /\ (forall l1 l2,
        decode_int_to_word (l1 ++ l2) map_int_to_char
        = decode_int_to_word l1 map_int_to_char ++ decode_int_to_word l2 map_int_to_char)
  /\ (forall word, Forall (fun s => s ∈ chars) word ->
        exists word_int, encode_word_to_int word map_char_to_int = Ok word_int
          /\ decode_int_to_word word_int map_int_to_char = word)
  /\ (forall word_int, Forall (fun i => 0 <= i < 39) word_int ->
        encode_word_to_int (decode_int_to_word word_int map_int_to_char) map_char_to_int
        = Ok word_int).
Proof.
  split_and!.
  - apply chars_length.
  - apply chars_NoDup.
  - intros s Hs. destruct (map_char_to_int_is_Some s Hs) as (i & Hi & Hr).
    exists i. split; [done|]. cbn [encode_word_to_int]. unfold py_getitem. rewrite Hi. split; [done|].
    rewrite decode_pointwise. cbn [map concat app]. unfold decode_symbol.
    apply mappings_inverse in Hi. by rewrite Hi.
  - intros i Hi. destruct (lookup_lt_is_Some_2 chars (Z.to_nat i)) as [s Hs].
    { rewrite chars_length. lia. }
    assert (map_int_to_char !! i = Some s) as Hm.
    { apply map_int_to_char_lookup. split; [lia|done]. }
    exists s. split_and!.
    + apply list_elem_of_lookup. eauto.
    + rewrite decode_pointwise. cbn [map concat]. unfold decode_symbol. by rewrite Hm.
    + cbn [encode_word_to_int]. unfold py_getitem.
      apply mappings_inverse in Hm. by rewrite Hm.
  - intros w1 w2. apply encode_app.
  - intros l1 l2. apply decode_app.
  - intros word Hw. destruct (encode_chars word Hw) as (word_int & He & _ & _ & Hd). eauto.
  - intros word_int Hw. destruct (decode_indices word_int Hw) as (word & Hd & _ & He).
    by rewrite Hd.
Qed.

Lemma codec_round_trip_witness :
  exists i, 0 <= i < 39
    /\ encode_word_to_int [241] map_char_to_int = Ok [i]
    /\ decode_int_to_word [i] map_int_to_char = [241].
Proof.
  apply (proj1 (proj2 codec_round_trip) 241).
  apply list_elem_of_In. vm_compute. tauto.
Defined.

(** C4, as the code has it: an index outside [0 .. 38] does not make
    decoding fail; it contributes the placeholder 'UNK' to the word, whatever
    stands around it, and an index inside [0 .. 38] contributes its symbol. *)
Theorem decode_unknown_index (i : Z) (before after : list Z) :
  (i < 0 \/ 39 <= i ->
     decode_int_to_word [i] map_int_to_char = UNK
     /\ decode_int_to_word (before ++ i :: after) map_int_to_char
        = decode_int_to_word before map_int_to_char ++ UNK
          ++ decode_int_to_word after map_int_to_char)
  /\ (0 <= i < 39 ->
     exists s, chars !! Z.to_nat i = Some s
       /\ decode_int_to_word [i] map_int_to_char = [s]
       /\ decode_int_to_word (before ++ i :: after) map_int_to_char
          = decode_int_to_word before map_int_to_char ++ [s]
            ++ decode_int_to_word after map_int_to_char).
Proof.
  split.
  - intros Hi. apply map_int_to_char_None in Hi.
    assert (decode_symbol map_int_to_char i = UNK) as Hs.
    { unfold decode_symbol. by rewrite Hi. }
    split; [by rewrite decode_cons, Hs | by rewrite decode_app, decode_cons, Hs].
  - intros Hi. destruct (lookup_lt_is_Some_2 chars (Z.to_nat i)) as [s Hs].
    { rewrite chars_length. lia. }
    exists s. split; [done|].
    assert (map_int_to_char !! i = Some s) as Hm.
    { apply map_int_to_char_lookup. split; [lia|done]. }
    assert (decode_symbol map_int_to_char i = [s]) as Hd.
    { unfold decode_symbol. by rewrite Hm. }
    split; [by rewrite decode_cons, Hd | by rewrite decode_app, decode_cons, Hd].
Qed.

Lemma decode_unknown_index_witness :
  decode_int_to_word [-1] map_int_to_char = UNK
  /\ decode_int_to_word ([0] ++ -1 :: [1]) map_int_to_char
     = decode_int_to_word [0] map_int_to_char ++ UNK
       ++ decode_int_to_word [1] map_int_to_char.
Proof. apply (proj1 (decode_unknown_index (-1) [0] [1])). lia. Defined.

(** C4, against the claim: the index 39 is no key of [map_int_to_char], and
    decoding it succeeds with the three symbols of 'UNK'. *)
Lemma decode_unknown_index_counterexample :
  map_int_to_char !! 39 = None
  /\ decode_int_to_word [39] map_int_to_char = [85; 78; 75]
  /\ decode_int_to_word [0; 39; 1] map_int_to_char = [97; 85; 78; 75; 98].
Proof. by vm_compute. Qed.

(** ** One-hot encoding *)

Lemma np_index_inside (size pos : Z) :
  0 <= pos < size -> np_index size pos = Ok (Z.to_nat pos).
Proof.
  intros H. unfold np_index.
  destruct (Z.leb_spec 0 pos), (Z.ltb_spec pos size); simpl; done || lia.
Qed.

Lemma np_index_wraps (size pos : Z) :
  - size <= pos < 0 -> np_index size pos = Ok (Z.to_nat (pos + size)).
Proof.
  intros H. unfold np_index.
  destruct (Z.leb_spec 0 pos), (Z.ltb_spec pos size), (Z.leb_spec (- size) pos),
    (Z.ltb_spec pos 0); simpl; done || lia.
Qed.

Lemma np_index_outside (size pos : Z) :
  pos < - size \/ size <= pos -> 0 <= size -> np_index size pos = Raise IndexError.
Proof.
  intros H Hs. unfold np_index.
  destruct (Z.leb_spec 0 pos), (Z.ltb_spec pos size), (Z.leb_spec (- size) pos),
    (Z.ltb_spec pos 0); simpl; done || lia.
Qed.

Lemma np_index_mod (size pos : Z) :
  - size <= pos < size -> np_index size pos = Ok (Z.to_nat (pos mod size)).
Proof.
  intros H. destruct (decide (0 <= pos)).
  - rewrite np_index_inside by lia. by rewrite Z.mod_small by lia.
  - rewrite np_index_wraps by lia. do 2 f_equal.
    apply Z.mod_unique with (-1); lia.
Qed.

Lemma zero_row_len (features : Z) : 0 <= features -> len (zero_row features) = features.
Proof. intros H. unfold len, zero_row. rewrite length_replicate. lia. Qed.

Lemma one_hot_rows_spec (features : Z) (word_int : list Z) (placed : list (list Z)) :
  0 <= features ->
  Forall (fun pos => - features <= pos < features) word_int ->
  one_hot_rows word_int (length placed)
    (placed ++ replicate (length word_int) (zero_row features))
  = Ok (placed ++ map (fun pos => one_hot_vector features (pos mod features)) word_int).
Proof.
  intros Hf Hall. revert placed.
  induction Hall as [|pos word_int Hpos _ IH]; intros placed; [done|].
  cbn [one_hot_rows length replicate map]. unfold np_setitem2.
  rewrite list_lookup_middle by done.
  rewrite zero_row_len, np_index_mod by done. cbn [res_bind].
  rewrite insert_app_r_alt, Nat.sub_diag by done. cbn [insert list_insert].
  specialize (IH (placed ++ [one_hot_vector features (pos mod features)])).
  rewrite length_app, <- !app_assoc in IH. cbn [length app] in IH.
  replace (length placed + 1)%nat with (S (length placed)) in IH by lia.
  exact IH.
Qed.

Lemma one_hot_encoding_spec (features : Z) (word_int : list Z) :
  Forall (fun pos => - features <= pos < features) word_int ->
  0 <= features ->
  one_hot_encoding word_int features
  = Ok (map (fun pos => one_hot_vector features (pos mod features)) word_int).
Proof.
  intros Hall Hf. unfold one_hot_encoding, np_zeros2.
  destruct (Z.ltb_spec features 0); [lia|]. cbn [res_bind].
  apply (one_hot_rows_spec features word_int [] Hf Hall).
Qed.

Lemma one_hot_encoding_in_range (features : Z) (word_int : list Z) :
  Forall (fun pos => 0 <= pos < features) word_int ->
  0 <= features ->
  one_hot_encoding word_int features = Ok (map (one_hot_vector features) word_int).
Proof.
  intros Hall Hf.
  rewrite one_hot_encoding_spec; [|eapply Forall_impl; [done|simpl; lia]|done].
  f_equal. apply map_ext_Forall. eapply Forall_impl; [done|].
  simpl. intros pos Hpos. by rewrite Z.mod_small.
Qed.

Lemma one_hot_encoding_single (i features : Z) :
  one_hot_encoding [i] features
  = if features <? 0 then Raise ValueError
    else if (- features <=? i) && (i <? features)
         then Ok [one_hot_vector features (i mod features)]
         else Raise IndexError.
Proof.
  destruct (Z.ltb_spec features 0) as [Hf|Hf].
  - unfold one_hot_encoding, np_zeros2. by destruct (Z.ltb_spec features 0); [|lia].
  - destruct (Z.leb_spec (- features) i), (Z.ltb_spec i features); cbn [andb].
    1: { rewrite one_hot_encoding_spec; [done| |done]. apply Forall_singleton. lia. }
    all: unfold one_hot_encoding, np_zeros2;
      destruct (Z.ltb_spec features 0); [lia|]; cbn [res_bind length replicate one_hot_rows];
      unfold np_setitem2; cbn [lookup list_lookup];
      change (replicate (Z.to_nat features) 0) with (zero_row features);
      rewrite zero_row_len, np_index_outside by lia; done.
Qed.

(** ** One-hot decoding *)

Lemma first_max_unique (row : list Z) (p q : nat) :
  first_max row p -> first_max row q -> p = q.
Proof.
  intros (v & Hv & Hmax & Hlow) (w & Hw & Hmax' & Hlow').
  destruct (Nat.lt_trichotomy p q) as [Hlt|[->|Hlt]]; [|done|].
  - specialize (Hlow' p v Hlt Hv). specialize (Hmax q w Hw). lia.
  - specialize (Hlow q w Hlt Hw). specialize (Hmax' p v Hv). lia.
Qed.

Lemma argmax_scan_first_max (seen row : list Z) (best : Z) (besti : nat) :
  seen !! besti = Some best ->
  first_max seen besti ->
  first_max (seen ++ row) (argmax_scan Z.gtb best besti (length seen) row).
Proof.
  revert seen best besti. induction row as [|v row IH]; intros seen best besti Hb Hfm.
  - by rewrite app_nil_r.
  - cbn [argmax_scan]. rewrite cons_middle, app_assoc.
    assert (besti < length seen)%nat as Hlt by by eapply lookup_lt_Some.
    destruct Hfm as (b & Hb' & Hmax & Hlow).
    assert (b = best) as -> by congruence.
    replace (S (length seen)) with (length (seen ++ [v]))
      by (rewrite length_app; simpl; lia).
    destruct (Z.gtb_spec v best) as [Hgt|Hle]; apply IH.
    + by rewrite list_lookup_middle.
    + exists v. split_and!.
      * by rewrite list_lookup_middle.
      * intros j w Hj. apply lookup_app_Some in Hj as [Hj|[_ Hj]].
        -- specialize (Hmax j w Hj). lia.
        -- apply list_lookup_singleton_Some in Hj as [_ <-]. lia.
      * intros j w Hjlt Hj. rewrite lookup_app_l in Hj by done.
        specialize (Hmax j w Hj). lia.
    + by rewrite lookup_app_l.
    + exists best. split_and!.
      * by rewrite lookup_app_l.
      * intros j w Hj. apply lookup_app_Some in Hj as [Hj|[_ Hj]].
        -- by apply (Hmax j).
        -- apply list_lookup_singleton_Some in Hj as [_ <-]. lia.
      * intros j w Hjlt Hj. rewrite lookup_app_l in Hj by lia. by apply (Hlow j).
Qed.

Lemma np_argmax_first_max (row : list Z) :
  row <> [] ->
  exists p, np_argmax Z.gtb row = Ok (Z.of_nat p) /\ first_max row p.
Proof.
  destruct row as [|v row]; [done|]. intros _.
  exists (argmax_scan Z.gtb v 0 1 row). split; [done|].
  apply (argmax_scan_first_max [v] row v 0); [done|].
  exists v. split_and!; [done| |intros; lia].
  intros j w Hj. apply list_lookup_singleton_Some in Hj as [_ <-]. lia.
Qed.

Lemma np_argmax_is (row : list Z) (p : nat) :
  first_max row p -> np_argmax Z.gtb row = Ok (Z.of_nat p).
Proof.
  intros Hp. destruct (np_argmax_first_max row) as (q & Hq & Hfm).
  - intros ->. by destruct Hp as (? & ? & _).
  - by rewrite (first_max_unique row p q).
Qed.

Lemma one_hot_vector_lookup (features pos : Z) (j : nat) :
  0 <= pos < features -> (j < Z.to_nat features)%nat ->
  one_hot_vector features pos !! j = Some (if decide (j = Z.to_nat pos) then 1 else 0).
Proof.
  intros Hpos Hj. unfold one_hot_vector. case_decide as E.
  - subst j. apply list_lookup_insert_eq. by rewrite length_replicate.
  - rewrite list_lookup_insert_ne by done. by apply lookup_replicate.
Qed.

Lemma one_hot_vector_length (features pos : Z) :
  length (one_hot_vector features pos) = Z.to_nat features.
Proof. unfold one_hot_vector. by rewrite length_insert, length_replicate. Qed.

Lemma first_max_one_hot (features pos : Z) :
  0 <= pos < features -> first_max (one_hot_vector features pos) (Z.to_nat pos).
Proof.
  intros Hpos. exists 1. split_and!.
  - rewrite one_hot_vector_lookup by lia. by rewrite decide_True.
  - intros j w Hj. assert (j < Z.to_nat features)%nat as Hlt.
    { apply lookup_lt_Some in Hj. by rewrite one_hot_vector_length in Hj. }
    rewrite one_hot_vector_lookup in Hj by done. case_decide; injection Hj as <-; lia.
  - intros j w Hlt Hj. assert (j < Z.to_nat features)%nat as Hlt'.
    { apply lookup_lt_Some in Hj. by rewrite one_hot_vector_length in Hj. }
    rewrite one_hot_vector_lookup in Hj by done.
    rewrite decide_False in Hj by lia. injection Hj as <-. lia.
Qed.

Lemma first_max_zero_row (features : Z) :
  0 < features -> first_max (zero_row features) 0.
Proof.
  intros Hf. exists 0. unfold zero_row. split_and!.
  - apply lookup_replicate. split; [done|lia].
  - intros j w [-> _]%lookup_replicate. lia.
  - intros; lia.
Qed.

Lemma one_hot_decoding_single (row : list Z) :
  one_hot_decoding [row] = do pos <- np_argmax Z.gtb row; Ok [pos].
Proof. cbn [one_hot_decoding]. by destruct (np_argmax Z.gtb row). Qed.

Lemma one_hot_decoding_vectors (features : Z) (word_int : list Z) :
  Forall (fun pos => 0 <= pos < features) word_int ->
  one_hot_decoding (map (one_hot_vector features) word_int) = Ok word_int.
Proof.
  induction 1 as [|pos word_int Hpos _ IH]; [done|].
  cbn [map one_hot_decoding].
  rewrite (np_argmax_is _ (Z.to_nat pos)) by by apply first_max_one_hot.
  rewrite IH. cbn [res_bind]. do 2 f_equal. lia.
Qed.

(** C6: one-hot encoding and decoding are inverse on valid indices, for one
    index [k] of [0 .. V-1] as for a whole array of them, and decoding a row
    (one that has entries) yields the position of its greatest entry, the
    lowest one when several entries are greatest. *)
Theorem one_hot_inverse :
  (forall V k, 0 <= k < V ->
     one_hot_encoding [k] V = Ok [one_hot_vector V k]
     /\ (do word_encoded <- one_hot_encoding [k] V; one_hot_decoding word_encoded) = Ok [k])
  /\ (forall V word_int, 0 <= V -> Forall (fun k => 0 <= k < V) word_int ->
     (do word_encoded <- one_hot_encoding word_int V; one_hot_decoding word_encoded)
     = Ok word_int)
  /\ (forall row, row <> [] ->
     exists p, one_hot_decoding [row] = Ok [Z.of_nat p] /\ first_max row p).
Proof.
  split_and!.
  - intros V k Hk.
    rewrite (one_hot_encoding_in_range V [k]); [|by apply Forall_singleton|lia].
    split; [done|]. cbn [res_bind]. apply (one_hot_decoding_vectors V [k]).
    by apply Forall_singleton.
  - intros V word_int HV Hall. rewrite one_hot_encoding_in_range by done.
    by apply one_hot_decoding_vectors.
  - intros row Hrow. destruct (np_argmax_first_max row Hrow) as (p & Hp & Hfm).
    exists p. by rewrite one_hot_decoding_single, Hp.
Qed.

Lemma one_hot_inverse_witness :
  one_hot_encoding [37] 39 = Ok [one_hot_vector 39 37]
  /\ (do word_encoded <- one_hot_encoding [37] 39; one_hot_decoding word_encoded) = Ok [37].
Proof. apply (proj1 one_hot_inverse 39 37). lia. Defined.

(** C9: [one_hot_decoding] maps an all-zero row (of any positive width) to
    the index 0, which is what it maps the one-hot encoding of the index 0
    to, although the two rows differ; 0 is the index of 'a'; and every row
    that [pad_sequences] adds behind a sequence is such an all-zero row. *)
Theorem zero_row_decodes_to_0 (features : Z) :
  0 < features ->
  one_hot_decoding [zero_row features] = Ok [0]
  /\ (do word_encoded <- one_hot_encoding [0] features; one_hot_decoding word_encoded)
     = Ok [0]
  /\ one_hot_encoding [0] features <> Ok [zero_row features]
  /\ map_char_to_int !! 97 = Some 0
  /\ decode_int_to_word [0] map_int_to_char = [97]
  /\ (forall maxlen s rows t,
        pad_one maxlen (Z.to_nat features) s = Ok rows ->
        (length s <= t < maxlen)%nat ->
        rows !! t = Some (zero_row features)).
Proof.
  intros Hf. split_and!.
  - rewrite one_hot_decoding_single, (np_argmax_is _ 0); [done|].
    by apply first_max_zero_row.
  - rewrite (one_hot_encoding_in_range features [0]); [|apply Forall_singleton; lia|lia].
    apply (one_hot_decoding_vectors features [0]), Forall_singleton. lia.
  - rewrite (one_hot_encoding_in_range features [0]); [|apply Forall_singleton; lia|lia].
    intros [= E]. apply (f_equal (fun r => r !! 0%nat)) in E.
    rewrite one_hot_vector_lookup in E by lia. rewrite decide_True in E by done.
    unfold zero_row in E. destruct (Z.to_nat features) eqn:?; [lia|]. done.
  - by vm_compute.
  - by vm_compute.
  - intros maxlen s rows t Hpad Ht. unfold pad_one in Hpad.
    destruct s as [|r s].
    + injection Hpad as <-. apply lookup_replicate. split; [done|lia].
    + destruct (forallb _ _); [|done]. injection Hpad as <-.
      rewrite lookup_app_r by (rewrite length_take; lia).
      apply lookup_replicate. split; [done|]. rewrite length_take. simpl in *. lia.
Qed.

Lemma zero_row_decodes_to_0_witness :
  one_hot_decoding [zero_row 39] = Ok [0]
  /\ (do word_encoded <- one_hot_encoding [0] 39; one_hot_decoding word_encoded) = Ok [0]
  /\ one_hot_encoding [0] 39 <> Ok [zero_row 39]
  /\ map_char_to_int !! 97 = Some 0
  /\ decode_int_to_word [0] map_int_to_char = [97]
  /\ (forall maxlen s rows t,
        pad_one maxlen (Z.to_nat 39) s = Ok rows ->
        (length s <= t < maxlen)%nat ->
        rows !! t = Some (zero_row 39)).
Proof. apply (zero_row_decodes_to_0 39). lia. Defined.

(** C10, as the code has it: for [-width <= i < 0] the construction
    succeeds and puts its single one at column [width + i]; it fails with an
    [IndexError] exactly when the index is [>= width] or [< -width] (for a
    width that is not negative). *)
Theorem one_hot_negative_index (i width : Z) :
  (- width <= i < 0 ->
     one_hot_encoding [i] width = Ok [one_hot_vector width (width + i)])
  /\ (0 <= width ->
     (one_hot_encoding [i] width = Raise IndexError <-> i >= width \/ i < - width)
     /\ ((exists word_encoded, one_hot_encoding [i] width = Ok word_encoded)
         <-> - width <= i < width)).
Proof.
  rewrite one_hot_encoding_single. split.
  - intros Hi. destruct (Z.ltb_spec width 0); [lia|].
    destruct (Z.leb_spec (- width) i), (Z.ltb_spec i width); try lia. cbn [andb].
    do 3 f_equal. symmetry. apply Z.mod_unique with (-1); lia.
  - intros Hw. destruct (Z.ltb_spec width 0); [lia|].
    destruct (Z.leb_spec (- width) i), (Z.ltb_spec i width); cbn [andb];
      (split; split; first [ lia | done | by intros [? ?] | by eauto ]).
Qed.

Lemma one_hot_negative_index_witness :
  one_hot_encoding [-1] 39 = Ok [one_hot_vector 39 (39 + -1)].
Proof. apply (proj1 (one_hot_negative_index (-1) 39)). lia. Defined.

(** C10, against the claim: the index -5 is not [>= 4], and the
    construction of width 4 fails on it. *)
Lemma one_hot_negative_index_counterexample :
  ~ (forall i width, one_hot_encoding [i] width = Raise IndexError -> i >= width).
Proof.
  intros H. specialize (H (-5) 4). cut (-5 >= 4); [lia|]. apply H. by vm_compute.
Qed.

(** ** Preparation: the longest name, the shifted targets, padding *)

Lemma res_map_ok {A B : Type} (f : A -> res B) (g : A -> B) (l : list A) :
  Forall (fun a => f a = Ok (g a)) l -> res_map f l = Ok (map g l).
Proof.
  induction 1 as [|a l Ha _ IH]; [done|].
  cbn [res_map map]. by rewrite Ha, IH.
Qed.

Lemma max_scan_spec (names : list (list Z)) (best : list Z) :
  (length best <= length (max_scan best names))%nat
  /\ Forall (fun name => (length name <= length (max_scan best names))%nat) names
  /\ (max_scan best names = best \/ max_scan best names ∈ names).
Proof.
  revert best. induction names as [|name names IH]; intros best; cbn [max_scan].
  - split_and!; [done|constructor|by left].
  - unfold len. destruct (Z.gtb_spec (Z.of_nat (length name)) (Z.of_nat (length best))) as [Hgt|Hle].
    + destruct (IH name) as (H1 & H2 & H3). split_and!; [lia| |].
      * by constructor.
      * right. destruct H3 as [->|H3]; [by left|by right].
    + destruct (IH best) as (H1 & H2 & H3). split_and!; [done| |].
      * constructor; [lia|done].
      * destruct H3 as [->|H3]; [by left|right; by right].
Qed.

Lemma py_max_len_spec (names : list (list Z)) :
  names <> [] ->
  exists longest, py_max_len names = Ok longest
    /\ longest ∈ names
    /\ Forall (fun name => (length name <= length longest)%nat) names.
Proof.
  destruct names as [|name names]; [done|]. intros _.
  exists (max_scan name names). destruct (max_scan_spec names name) as (H1 & H2 & H3).
  split_and!; [done| |by constructor].
  destruct H3 as [->|H3]; [by left|by right].
Qed.

Lemma np_add_scalar (a : list Z) (y : Z) :
  np_add a [y] = Ok (map (fun x => x + y) a).
Proof.
  unfold np_add. by destruct a as [|x [|x' a]].
Qed.

Lemma np_concatenate0_ok (a b : list (list Z)) (w : nat) :
  Forall (fun row => length row = w) a ->
  Forall (fun row => length row = w) b ->
  np_concatenate0 a b = Ok (a ++ b).
Proof.
  intros Ha Hb. unfold np_concatenate0.
  destruct a as [|ra a], b as [|rb b]; try done.
  apply Forall_cons_1 in Ha as [-> _]. apply Forall_cons_1 in Hb as [<- _].
  by rewrite Nat.eqb_refl.
Qed.

Lemma pad_one_fits (maxlen features : nat) (s : list (list Z)) :
  (length s <= maxlen)%nat ->
  Forall (fun row => length row = features) s ->
  pad_one maxlen features s
  = Ok (s ++ replicate (maxlen - length s) (replicate features 0)).
Proof.
  intros Hlen Hw. unfold pad_one. destruct s as [|row s].
  - by rewrite Nat.sub_0_r.
  - assert (forallb (fun row => (length row =? features)%nat) (row :: s) = true) as ->.
    { apply forallb_forall. intros r Hr%list_elem_of_In.
      apply Nat.eqb_eq. by eapply (proj1 (Forall_forall _ _) Hw). }
    by rewrite take_ge by done.
Qed.

Lemma pad_sequences_fits (sequences : list (list (list Z))) (maxlen features : nat) :
  sample_shape sequences = Some features ->
  Forall (fun s => (length s <= maxlen)%nat
                   /\ Forall (fun row => length row = features) s) sequences ->
  pad_sequences sequences (Z.of_nat maxlen)
  = Ok (Padded3 (map (fun s => s ++ replicate (maxlen - length s) (replicate features 0))
                     sequences)).
Proof.
  intros Hshape Hall. unfold pad_sequences.
  destruct (Z.ltb_spec (Z.of_nat maxlen) 0); [lia|].
  rewrite Hshape, Nat2Z.id.
  rewrite (res_map_ok _ (fun s => s ++ replicate (maxlen - length s) (replicate features 0))).
  - done.
  - eapply Forall_impl; [done|]. intros s [Hlen Hw]. by apply pad_one_fits.
Qed.

Lemma n_is_39 : n = 39.
Proof. reflexivity. Qed.

Lemma dot_index : py_getitem map_char_to_int DOT = Ok 37.
Proof. by vm_compute. Qed.

Lemma dot_encoded_is : one_hot_encoding [37] n = Ok [one_hot_vector n 37].
Proof. rewrite n_is_39. apply (one_hot_encoding_in_range 39 [37]); [apply Forall_singleton|]; lia. Qed.

Lemma encoded_in_range (name word_int : list Z) :
  encode_word_to_int name map_char_to_int = Ok word_int ->
  length word_int = length name /\ Forall (fun i => 0 <= i < n) word_int.
Proof.
  intros H%encode_Ok. split; [symmetry; by eapply Forall2_length|].
  rewrite n_is_39. induction H as [|ch i name word_int Hi _ IH]; constructor; [|done].
  apply map_char_to_int_lookup in Hi as [? Hi%lookup_lt_Some].
  rewrite chars_length in Hi. lia.
Qed.

Lemma encode_names_spec (names : list (list Z)) :
  Forall (Forall (fun ch => ch ∈ chars)) names ->
  exists ints,
    encode_names names = Ok (ints, map (map (one_hot_vector n)) ints)
    /\ Forall2 (fun name word_int =>
                  encode_word_to_int name map_char_to_int = Ok word_int) names ints.
Proof.
  induction 1 as [|name names Hname _ (ints & He & Hall)].
  - exists []. split; [done|constructor].
  - destruct (encode_chars name Hname) as (word_int & Hw & _).
    exists (word_int :: ints). split; [|by constructor].
    cbn [encode_names]. rewrite Hw. cbn [res_bind].
    destruct (encoded_in_range _ _ Hw) as [_ Hr].
    rewrite one_hot_encoding_in_range by (done || (rewrite n_is_39; lia)).
    by rewrite He.
Qed.

Lemma shifted_spec {A : Type} (dot : A) (l : list A) :
  l <> [] ->
  length (shifted dot l) = length l
  /\ (forall i, (i < length l - 1)%nat -> shifted dot l !! i = l !! S i)
  /\ shifted dot l !! (length l - 1)%nat = Some dot.
Proof.
  destruct l as [|a l]; [done|]. intros _. unfold shifted. cbn [drop length].
  rewrite drop_0, length_app. cbn [length].
  replace (S (length l) - 1)%nat with (length l) by lia. split_and!.
  - lia.
  - intros i Hi. by rewrite lookup_app_l by lia.
  - by rewrite list_lookup_middle.
Qed.

Lemma shifted_map {A B : Type} (f : A -> B) (dot : A) (l : list A) :
  drop 1 (map f l) ++ [f dot] = map f (shifted dot l).
Proof. unfold shifted. rewrite map_app. by destruct l. Qed.

Lemma one_hot_rows_width (word_int : list Z) :
  Forall (fun row => length row = Z.to_nat n) (map (one_hot_vector n) word_int).
Proof.
  apply Forall_forall. intros row (pos & <- & _)%list_elem_of_In%in_map_iff.
  apply one_hot_vector_length.
Qed.

Section PreparerFacts.
Variable lower : list Z -> list Z.

(** What the preparation cells compute on a corpus of names that are not
    empty, are written in the alphabet once lower-cased, and keep their
    length when lower-cased. *)
Lemma prepare_spec (names : list (list Z)) :
  names <> [] ->
  Forall (fun name => lower name <> []
                      /\ length (lower name) = length name
                      /\ Forall (fun ch => ch ∈ chars) (lower name)) names ->
  exists longest ints,
    longest ∈ names
    /\ Forall (fun name => (length name <= length longest)%nat) names
    /\ Forall2 (fun name word_int =>
                  encode_word_to_int (lower name) map_char_to_int = Ok word_int)
         names ints
    /\ prepare lower names
       = Ok {| m := len names;
               timesteps := len longest;
               X_male := map lower names;
               y_male := map (shifted DOT) (map lower names);
               X_male_int := ints;
               X_male_encoded := map (map (one_hot_vector n)) ints;
               y_male_int := map (fun word_int => map (fun v => v + 37) (drop 1 word_int)) ints;
               y_male_encoded :=
                 map (fun word_int => map (one_hot_vector n) (shifted 37 word_int)) ints;
               X_male_padded := Padded3 (map (right_padded (length longest)) ints);
               y_male_padded :=
                 Padded3 (map (fun word_int =>
                                 right_padded (length longest) (shifted 37 word_int)) ints) |}.
Proof.
  intros Hne Hnames.
  destruct (py_max_len_spec names Hne) as (longest & Hmax & Hin & Hle).
  destruct (encode_names_spec (map lower names)) as (ints & Henc & Hall).
  { apply Forall_forall. intros name' (name & <- & Hname)%list_elem_of_In%in_map_iff.
    apply list_elem_of_In in Hname.
    by destruct (proj1 (Forall_forall _ _) Hnames name Hname) as (_ & _ & ?). }
  apply Forall2_fmap_l in Hall.
  exists longest, ints. split_and!; [done|done|done|].
  (* every encoded name: as long as the name, not empty, within the longest *)
  assert (Forall (fun word_int => word_int <> []
                    /\ (length word_int <= length longest)%nat
                    /\ Forall (fun i => 0 <= i < n) word_int) ints) as Hints.
  { apply Forall_forall. intros word_int Hw.
    apply list_elem_of_lookup in Hw as [i Hw].
    destruct (Forall2_lookup_r _ _ _ _ _ Hall Hw) as (name & Hname & He).
    apply encoded_in_range in He as [Hlen Hr].
    apply list_elem_of_lookup_2 in Hname.
    destruct (proj1 (Forall_forall _ _) Hnames name Hname) as (Hnn & Hl & _).
    pose proof (proj1 (Forall_forall _ _) Hle name Hname) as Hlong.
    cbn beta in Hlong. split_and!; [|lia|done].
    intros ->. destruct (lower name); [done|]. simpl in Hlen. lia. }
  assert (ints <> []) as Hints_ne.
  { intros ->. apply Forall2_nil_inv_r in Hall. done. }
  unfold prepare. rewrite Hmax. cbn [res_bind]. rewrite Henc. cbn [res_bind fst snd].
  rewrite dot_index. cbn [res_bind]. rewrite dot_encoded_is. cbn [res_bind].
  rewrite (res_map_ok _ (fun word_int => map (fun v => v + 37) (drop 1 word_int))).
  2: { apply Forall_forall. intros word_int _. apply np_add_scalar. }
  cbn [res_bind].
  rewrite (res_map_ok _ (fun l => drop 1 l ++ [one_hot_vector n 37])).
  2: { apply Forall_forall. intros l (word_int & <- & _)%list_elem_of_In%in_map_iff.
       apply np_concatenate0_ok with (Z.to_nat n).
       - rewrite skipn_map. apply one_hot_rows_width.
       - apply (one_hot_rows_width [37]). }
  cbn [res_bind]. rewrite map_map.
  rewrite (map_ext (fun word_int => drop 1 (map (one_hot_vector n) word_int) ++ [one_hot_vector n 37])
             (fun word_int => map (one_hot_vector n) (shifted 37 word_int)))
    by (intros; apply shifted_map).
  change (len longest) with (Z.of_nat (length longest)).
  rewrite (pad_sequences_fits (map (map (one_hot_vector n)) ints) _ (Z.to_nat n)).
  2: { destruct ints as [|word_int ints']; [done|].
       apply Forall_cons_1 in Hints as [(Hw & _) _].
       destruct word_int; [done|]. cbn [map sample_shape]. by rewrite one_hot_vector_length. }
  2: { apply Forall_forall. intros l (word_int & <- & Hw)%list_elem_of_In%in_map_iff.
       apply list_elem_of_In in Hw.
       destruct (proj1 (Forall_forall _ _) Hints word_int Hw) as (_ & Hl & _).
       split; [by rewrite length_map|apply one_hot_rows_width]. }
  cbn [res_bind]. rewrite (pad_sequences_fits _ _ (Z.to_nat n)).
  2: { destruct ints as [|word_int ints']; [done|]. cbn [map].
       unfold shifted. rewrite map_app.
       destruct (map (one_hot_vector n) (drop 1 word_int)) as [|row rows] eqn:E;
         cbn [app map sample_shape]; [by rewrite one_hot_vector_length|].
       pose proof (one_hot_rows_width (drop 1 word_int)) as Hwd. rewrite E in Hwd.
       by apply Forall_cons_1 in Hwd as [-> _]. }
  2: { apply Forall_forall. intros l (word_int & <- & Hw)%list_elem_of_In%in_map_iff.
       apply list_elem_of_In in Hw.
       destruct (proj1 (Forall_forall _ _) Hints word_int Hw) as (Hw_ne & Hl & _).
       destruct (shifted_spec 37 word_int Hw_ne) as (Hlen & _).
       split; [rewrite length_map; lia|apply one_hot_rows_width]. }
  cbn [res_bind]. rewrite !map_map. do 2 f_equal.
  - f_equal. apply map_ext. intros word_int. unfold right_padded. by rewrite length_map.
  - f_equal. apply map_ext_Forall. eapply Forall_impl; [exact Hints|].
    intros word_int (Hw_ne & _). cbn beta. unfold right_padded.
    destruct (shifted_spec 37 word_int Hw_ne) as (Hlen & _).
    by rewrite length_map.
Qed.
End PreparerFacts.

Lemma lookup_map {A B : Type} (f : A -> B) (l : list A) (i : nat) :
  map f l !! i = f <$> (l !! i).
Proof. exact (list_lookup_fmap f l i). Qed.




(** C1, on the corpus of the single name "ab": the target string is "b." and
    the one-hot target holds the rows of 'b' and of the dot, as the shift
    asks; but [y_male_int], computed from the numpy array [[0, 1]] by
    [word_int[1:] + [37]], is the array [[38]]: the sum of 1 and 37, one
    entry long, and not the shifted indices [[1, 37]]. *)
Theorem y_male_int_adds_the_dot :
  exists p, prepare (fun name => name) [[97; 98]] = Ok p
    /\ X_male p = [[97; 98]] /\ y_male p = [[98; 46]]
    /\ X_male_int p = [[0; 1]]
    /\ y_male_encoded p = [[one_hot_vector 39 1; one_hot_vector 39 37]]
    /\ y_male_int p = [[38]]
    /\ y_male_int p <> [shifted 37 [0; 1]].
Proof. eexists. split; [by vm_compute|]. by vm_compute. Qed.

(** The shift of the targets, in the two representations that have it: for
    every name of the corpus the target string [y_male[i]] is as long as the
    name, holds the name's next symbol at every position but the last and
    the dot at the last, and [y_male_encoded[i]] holds the one-hot rows of
    that target's indices. *)
Theorem target_shift (lower : list Z -> list Z) (names : list (list Z)) :
  names <> [] ->
  Forall (fun name => lower name <> []
                      /\ length (lower name) = length name
                      /\ Forall (fun ch => ch ∈ chars) (lower name)) names ->
  exists p,
    prepare lower names = Ok p
    /\ forall i name, X_male p !! i = Some name ->
         exists target word_int,
           y_male p !! i = Some target
           /\ length target = length name
           /\ (forall j, (j < length name - 1)%nat -> target !! j = name !! S j)
           /\ target !! (length name - 1)%nat = Some DOT
           /\ X_male_int p !! i = Some word_int
           /\ encode_word_to_int name map_char_to_int = Ok word_int
           /\ encode_word_to_int target map_char_to_int = Ok (shifted 37 word_int)
           /\ y_male_encoded p !! i = Some (map (one_hot_vector n) (shifted 37 word_int)).
Proof.
  intros Hne Hnames.
  destruct (prepare_spec lower names Hne Hnames) as (longest & ints & Hin & Hle & Hall & Hp).
  eexists. split; [exact Hp|]. cbn [X_male y_male X_male_int y_male_encoded].
  intros i name' Hi. rewrite lookup_map in Hi.
  destruct (names !! i) as [name|] eqn:Hname; [|done]. injection Hi as <-.
  destruct (Forall2_lookup_l _ _ _ _ _ Hall Hname) as (word_int & Hw & He).
  pose proof (list_elem_of_lookup_2 _ _ _ Hname) as Hname_in.
  destruct (proj1 (Forall_forall _ _) Hnames name Hname_in) as (Hnn & _).
  destruct (shifted_spec DOT (lower name) Hnn) as (S1 & S2 & S3).
  exists (shifted DOT (lower name)), word_int.
  rewrite !lookup_map, Hname, Hw. split_and!; try done.
  - apply encode_Ok. apply encode_Ok in He. unfold shifted. apply Forall2_app.
    + by apply Forall2_drop.
    + constructor; [by vm_compute|constructor].
Qed.

Lemma target_shift_witness :
  exists p, prepare (fun name => name) [[97; 98]; [99]] = Ok p
            /\ y_male p = [[98; 46]; [46]].
Proof.
  destruct (target_shift (fun name => name) [[97; 98]; [99]]) as (p & Hp & _).
  - done.
  - repeat constructor; try done; apply list_elem_of_In; vm_compute; tauto.
  - exists p. split; [done|]. vm_compute in Hp. by injection Hp as <-.
Defined.

(** The integer targets, as the code computes them on any corpus:
    [y_male_int[i]] holds, for every position but the first of the name's
    indices, that index plus 37; it is one entry shorter than the name and
    holds no entry for the dot. *)
Lemma y_male_int_spec (lower : list Z -> list Z) (names : list (list Z)) :
  names <> [] ->
  Forall (fun name => lower name <> []
                      /\ length (lower name) = length name
                      /\ Forall (fun ch => ch ∈ chars) (lower name)) names ->
  exists p,
    prepare lower names = Ok p
    /\ forall i word_int, X_male_int p !! i = Some word_int ->
         exists target_int,
           y_male_int p !! i = Some target_int
           /\ length target_int = (length word_int - 1)%nat
           /\ forall j v, word_int !! S j = Some v -> target_int !! j = Some (v + 37).
Proof.
  intros Hne Hnames.
  destruct (prepare_spec lower names Hne Hnames) as (longest & ints & Hin & Hle & Hall & Hp).
  eexists. split; [exact Hp|]. cbn [X_male_int y_male_int].
  intros i word_int Hw. eexists. rewrite lookup_map, Hw. split_and!; [done| |].
  - by rewrite length_map, length_drop.
  - intros j v Hj. rewrite lookup_map, lookup_drop. cbn [Nat.add]. by rewrite Hj.
Qed.

(** ** Generation *)

Section GeneratorFacts.
Context {prob rng : Type}.
Variable predict : list (list Z) -> list (list prob).
Variable select : rng -> list prob -> res (Z * rng).

Lemma gen_body_word (st st' : gen_state rng) :
  gen_body predict select st = Ok st' ->
  st_word st' = st_word st ++ [st_c st'].
Proof.
  unfold gen_body. intros H.
  destruct (np_last _); [|done]. cbn [res_bind] in H.
  destruct (select _ _); [|done]. cbn [res_bind] in H.
  destruct (one_hot_encoding _ _); [|done]. cbn [res_bind] in H.
  destruct (py_getitem _ _); [|done]. cbn [res_bind] in H.
  destruct (np_concatenate0 _ _); [|done]. cbn [res_bind] in H.
  by injection H as <-.
Qed.

Lemma gen_loop_unfold (fuel : nat) (st : gen_state rng) :
  gen_loop predict select fuel st
  = if st_c st =? DOT then Finished (st_word st)
    else match fuel with
         | O => Running st
         | S fuel' =>
             match gen_body predict select st with
             | Raise e => Raised e
             | Ok st' => gen_loop predict select fuel' st'
             end
         end.
Proof. by destruct fuel. Qed.

(** One more turn, seen from the end of the run. *)
Lemma gen_loop_snoc (fuel : nat) (st : gen_state rng) :
  gen_loop predict select (S fuel) st
  = match gen_loop predict select fuel st with
    | Finished w => Finished w
    | Raised e => Raised e
    | Running st' => gen_loop predict select 1 st'
    end.
Proof.
  revert st. induction fuel as [|fuel IH]; intros st.
  - rewrite (gen_loop_unfold 0). destruct (st_c st =? DOT) eqn:E; [|done].
    by rewrite gen_loop_unfold, E.
  - rewrite (gen_loop_unfold (S (S fuel))), (gen_loop_unfold (S fuel)).
    destruct (st_c st =? DOT); [done|].
    destruct (gen_body predict select st) as [st'|e]; [|done]. apply IH.
Qed.

Lemma gen_loop_Running (fuel : nat) (st st' : gen_state rng) :
  gen_loop predict select fuel st = Running st' ->
  st_c st' <> DOT
  /\ length (st_word st') = (length (st_word st) + fuel)%nat.
Proof.
  revert st. induction fuel as [|fuel IH]; intros st; rewrite gen_loop_unfold.
  - destruct (Z.eqb_spec (st_c st) DOT); [done|]. intros [= <-]. split; [done|lia].
  - destruct (Z.eqb_spec (st_c st) DOT); [done|].
    destruct (gen_body predict select st) as [st1|e] eqn:Hb; [|done].
    intros [Hc Hlen]%IH. split; [done|].
    rewrite Hlen, (gen_body_word _ _ Hb), length_app. simpl. lia.
Qed.

(** A finished or failed run stays so with more fuel. *)
Lemma gen_loop_stable (fuel fuel' : nat) (st : gen_state rng) :
  (fuel <= fuel')%nat ->
  (forall w, gen_loop predict select fuel st = Finished w ->
             gen_loop predict select fuel' st = Finished w)
  /\ (forall e, gen_loop predict select fuel st = Raised e ->
                gen_loop predict select fuel' st = Raised e).
Proof.
  induction 1 as [|fuel' _ [IH1 IH2]]; [done|].
  split.
  - intros w Hw. by rewrite gen_loop_snoc, (IH1 w Hw).
  - intros e He. by rewrite gen_loop_snoc, (IH2 e He).
Qed.

Lemma gen_loop_functional (fuel1 fuel2 : nat) (st : gen_state rng) (w1 w2 : list Z) :
  gen_loop predict select fuel1 st = Finished w1 ->
  gen_loop predict select fuel2 st = Finished w2 ->
  w1 = w2.
Proof.
  intros H1 H2.
  destruct (gen_loop_stable fuel1 (fuel1 `max` fuel2) st) as [S1 _]; [lia|].
  destruct (gen_loop_stable fuel2 (fuel1 `max` fuel2) st) as [S2 _]; [lia|].
  apply S1 in H1. apply S2 in H2. congruence.
Qed.

(** The last turn of a finished run. *)
Lemma gen_loop_Finished (fuel : nat) (st : gen_state rng) (w : list Z) :
  st_c st <> DOT ->
  gen_loop predict select fuel st = Finished w ->
  exists j st1 st2,
    (j < fuel)%nat
    /\ gen_loop predict select j st = Running st1
    /\ gen_body predict select st1 = Ok st2
    /\ st_c st2 = DOT /\ w = st_word st2.
Proof.
  intros Hc. induction fuel as [|fuel IH].
  - rewrite gen_loop_unfold. by destruct (Z.eqb_spec (st_c st) DOT).
  - rewrite gen_loop_snoc.
    destruct (gen_loop predict select fuel st) as [w'|e|st1] eqn:Hrun.
    + intros [= ->]. destruct IH as (j & st1 & st2 & Hj & H); [done|].
      exists j, st1, st2. split; [lia|done].
    + done.
    + intros H1. exists fuel, st1. rewrite (gen_loop_unfold 1) in H1.
      destruct (gen_loop_Running _ _ _ Hrun) as [Hc1 _].
      destruct (Z.eqb_spec (st_c st1) DOT); [done|].
      destruct (gen_body predict select st1) as [st2|e]; [|done].
      rewrite (gen_loop_unfold 0) in H1.
      destruct (Z.eqb_spec (st_c st2) DOT); [|done].
      injection H1 as <-. exists st2. split_and!; (done || lia).
Qed.

Lemma gen_loop_word_invariant (fuel : nat) (st : gen_state rng) (w : list Z) :
  word_invariant st ->
  gen_loop predict select fuel st = Finished w ->
  exists w', w = w' ++ [DOT] /\ DOT ∉ w'.
Proof.
  revert st. induction fuel as [|fuel IH]; intros st Hinv; rewrite gen_loop_unfold;
    destruct (Z.eqb_spec (st_c st) DOT) as [Hc|Hc]; try done.
  1, 2: intros [= <-]; destruct Hinv as [[_ ?]|(w' & Hw & Hdot)]; [done|];
    exists w'; by rewrite Hw, Hc.
  destruct (gen_body predict select st) as [st'|e] eqn:Hb; [|done].
  apply IH. right. exists (st_word st). split; [by apply gen_body_word|].
  destruct Hinv as [[-> _]|(w' & -> & Hdot)]; [apply not_elem_of_nil|].
  rewrite elem_of_app, list_elem_of_singleton. intros [?|?]; [done|congruence].
Qed.
End GeneratorFacts.

Lemma gen_init_Ok {rng : Type} (g : rng) :
  gen_init g = Ok {| st_x := [zero_row n]; st_word := []; st_c := 45; st_rng := g |}.
Proof. reflexivity. Qed.

Lemma gen_loop_ext {prob rng : Type} (predict1 predict2 : list (list Z) -> list (list prob))
    (select : rng -> list prob -> res (Z * rng)) (fuel : nat) (st : gen_state rng) :
  (forall x, predict1 x = predict2 x) ->
  gen_loop predict1 select fuel st = gen_loop predict2 select fuel st.
Proof.
  intros Hext. revert st. induction fuel as [|fuel IH]; intros st; [done|].
  rewrite !(gen_loop_unfold _ _ (S fuel)). destruct (st_c st =? DOT); [done|].
  assert (gen_body predict1 select st = gen_body predict2 select st) as ->.
  { unfold gen_body. by rewrite Hext. }
  destruct (gen_body predict2 select st); [apply IH|done].
Qed.

(** C2, as the code has it: a generation run of either cell ([select] is
    the line that picks the symbol, by [np.argmax] or by [np.random.choice])
    is left only through the dot, and no bound on the length is involved.
    While the run is going on after [j] turns the word has [j] symbols; if
    the next turn picks the dot the run finishes, for any larger number of
    turns allowed, with a word of [j + 1] symbols, and if it picks another
    symbol the run goes on; and a run that has finished did so in a turn
    that picked the dot. *)
Theorem generation_stops_at_dot {prob rng : Type}
    (gt : prob -> prob -> bool)
    (random_choice : rng -> list Z -> list prob -> res (Z * rng))
    (predict : list (list Z) -> list (list prob))
    (select : rng -> list prob -> res (Z * rng)) (g : rng) :
  select = select_greedy gt \/ select = select_stochastic random_choice ->
  (forall j st, generation predict select j g = Running st ->
     length (st_word st) = j
     /\ (forall st', gen_body predict select st = Ok st' -> st_c st' = DOT ->
           length (st_word st') = S j
           /\ forall fuel, (j < fuel)%nat ->
                generation predict select fuel g = Finished (st_word st'))
     /\ (forall st', gen_body predict select st = Ok st' -> st_c st' <> DOT ->
           generation predict select (S j) g = Running st'))
  /\ (forall fuel w, generation predict select fuel g = Finished w ->
     exists j st st',
       (j < fuel)%nat
       /\ generation predict select j g = Running st
       /\ gen_body predict select st = Ok st'
       /\ st_c st' = DOT /\ w = st_word st' /\ length w = S j).
Proof.
  intros _. unfold generation. rewrite gen_init_Ok.
  set (st0 := {| st_x := [zero_row n]; st_word := []; st_c := 45; st_rng := g |}).
  assert (forall j st st', gen_loop predict select j st0 = Running st ->
            gen_body predict select st = Ok st' -> length (st_word st') = S j) as Hlen.
  { intros j st st' [_ Hl]%gen_loop_Running Hb.
    rewrite (gen_body_word _ _ _ _ Hb), length_app, Hl. simpl. lia. }
  split.
  - intros j st Hrun. destruct (gen_loop_Running _ _ _ _ _ Hrun) as [Hc Hl].
    assert (forall st', gen_body predict select st = Ok st' ->
              gen_loop predict select (S j) st0
              = if st_c st' =? DOT then Finished (st_word st') else Running st') as Hstep.
    { intros st' Hb. rewrite gen_loop_snoc, Hrun, (gen_loop_unfold _ _ 1).
      destruct (Z.eqb_spec (st_c st) DOT); [done|]. rewrite Hb.
      by rewrite (gen_loop_unfold _ _ 0). }
    split_and!.
    + by rewrite Hl.
    + intros st' Hb Hdot. split; [by eapply Hlen|].
      intros fuel Hfuel. eapply (gen_loop_stable _ _ (S j)); [lia|].
      rewrite (Hstep st' Hb). by destruct (Z.eqb_spec (st_c st') DOT).
    + intros st' Hb Hdot. rewrite (Hstep st' Hb). by destruct (Z.eqb_spec (st_c st') DOT).
  - intros fuel w Hw.
    destruct (gen_loop_Finished predict select fuel st0 w) as (j & st & st' & Hj & Hrun & Hb & Hdot & ->);
      [done|done|].
    exists j, st, st'. split_and!; try done. by eapply Hlen.
Qed.

Lemma generation_stops_at_dot_witness :
  exists st,
    generation spell_ab (select_greedy Z.gtb) 2 [0; 1; 37] = Running st
    /\ length (st_word st) = 2%nat.
Proof.
  destruct (generation spell_ab (select_greedy Z.gtb) 2 [0; 1; 37]) as [w|e|st] eqn:E.
  1, 2: by vm_compute in E.
  exists st. split; [done|].
  apply (proj1 (proj1 (generation_stops_at_dot Z.gtb scripted_choice spell_ab
                         (select_greedy Z.gtb) [0; 1; 37] (or_introl eq_refl)) 2%nat st E)).
Defined.

(** *** A model that never picks the dot *)

Lemma last_map {A B : Type} (f : A -> B) (l : list A) :
  last (map f l) = f <$> last l.
Proof.
  induction l as [|a [|b l] IH]; [done|done|].
  change (last (map f (a :: b :: l))) with (last (map f (b :: l))).
  by rewrite IH.
Qed.

Lemma always_a_body (st : gen_state ()) :
  st_x st <> [] ->
  Forall (fun row => length row = Z.to_nat n) (st_x st) ->
  gen_body always_a (select_greedy Z.gtb) st
  = Ok {| st_x := st_x st ++ [one_hot_vector n 0];
          st_word := st_word st ++ [97]; st_c := 97; st_rng := st_rng st |}.
Proof.
  intros Hx Hw. unfold gen_body, always_a, np_last. rewrite last_map.
  destruct (last (st_x st)) as [row|] eqn:Hlast.
  2: { by apply last_None in Hlast. }
  cbn [fmap option_fmap option_map res_bind]. unfold select_greedy.
  assert (np_argmax Z.gtb (one_hot_vector n 0) = Ok 0) as -> by by vm_compute.
  cbn [res_bind fst snd].
  assert (one_hot_encoding [0] n = Ok [one_hot_vector n 0]) as -> by by vm_compute.
  cbn [res_bind].
  assert (py_getitem map_int_to_char 0 = Ok 97) as -> by by vm_compute.
  cbn [res_bind]. unfold np_reshape_row. cbn [concat]. rewrite app_nil_r.
  rewrite (np_concatenate0_ok _ _ (Z.to_nat n)); [done|done|].
  apply Forall_singleton, one_hot_vector_length.
Qed.

Lemma always_a_runs (fuel : nat) (st : gen_state ()) :
  st_c st <> DOT ->
  st_x st <> [] ->
  Forall (fun row => length row = Z.to_nat n) (st_x st) ->
  exists st', gen_loop always_a (select_greedy Z.gtb) fuel st = Running st'.
Proof.
  revert st. induction fuel as [|fuel IH]; intros st Hc Hx Hw; rewrite gen_loop_unfold;
    destruct (Z.eqb_spec (st_c st) DOT); try done.
  - by exists st.
  - rewrite always_a_body by done. apply IH; cbn [st_c st_x].
    + done.
    + by destruct (st_x st).
    + apply Forall_app. split; [done|]. apply Forall_singleton, one_hot_vector_length.
Qed.

(** C2, against the claim: on a model that always scores 'a' highest the
    greedy run never finishes, however many turns it is given, and its
    word outgrows every bound. *)
Lemma generation_unbounded_counterexample :
  ~ (exists fuel w, greedy_generation Z.gtb always_a fuel tt = Finished w)
  /\ (forall bound : nat, exists st,
        greedy_generation Z.gtb always_a (S bound) tt = Running st
        /\ (bound < length (st_word st))%nat).
Proof.
  assert (forall fuel, exists st,
            greedy_generation Z.gtb always_a fuel tt = Running st) as Hruns.
  { intros fuel. unfold greedy_generation, generation. rewrite gen_init_Ok.
    apply always_a_runs; cbn [st_c st_x]; [done|done|].
    apply Forall_singleton. unfold zero_row. apply length_replicate. }
  split.
  - intros (fuel & w & Hw). destruct (Hruns fuel) as [st Hst]. congruence.
  - intros bound. destruct (Hruns (S bound)) as [st Hst]. exists st. split; [done|].
    unfold greedy_generation, generation in Hst. rewrite gen_init_Ok in Hst.
    apply gen_loop_Running in Hst as [_ Hl]. rewrite Hl. cbn [st_word length]. lia.
Qed.

(** C3, as the code has it: the word a finished run of either cell prints
    ends with the dot whose choice left the loop, and holds no other dot. *)
Theorem generated_word_ends_with_dot {prob rng : Type}
    (gt : prob -> prob -> bool)
    (random_choice : rng -> list Z -> list prob -> res (Z * rng))
    (predict : list (list Z) -> list (list prob)) (g : rng)
    (fuel : nat) (w : list Z) :
  greedy_generation gt predict fuel g = Finished w
  \/ stochastic_generation predict random_choice fuel g = Finished w ->
  exists w', w = w' ++ [DOT] /\ (DOT ∉ w') /\ last w = Some DOT.
Proof.
  unfold greedy_generation, stochastic_generation, generation.
  rewrite gen_init_Ok. intros [Hw|Hw];
    (apply gen_loop_word_invariant in Hw as (w' & -> & Hdot);
     [ exists w'; split_and!; [done|done|apply last_snoc] | left; by split ]).
Qed.

Lemma generated_word_ends_with_dot_witness :
  exists w', [97; 98; 46] = w' ++ [DOT] /\ (DOT ∉ w') /\ last [97; 98; 46] = Some DOT.
Proof.
  apply (generated_word_ends_with_dot Z.gtb scripted_choice spell_ab [0; 1; 37] 5).
  left. by vm_compute.
Defined.

(** C3, against the claim: the greedy run on a model that spells "ab."
    finishes with the word "ab.", dot included; so does the stochastic run
    whose draws are 'a', 'b' and the dot. *)
Lemma generated_word_counterexample :
  greedy_generation Z.gtb spell_ab 5 tt = Finished [97; 98; 46]
  /\ stochastic_generation spell_ab scripted_choice 5 [0; 1; 37] = Finished [97; 98; 46]
  /\ last [97; 98; 46] = Some DOT.
Proof. by vm_compute. Qed.

(** ** More on the codec: what raises, and what comes out *)

Lemma map_char_to_int_None (ch : Z) :
  map_char_to_int !! ch = None <-> ch ∉ chars.
Proof.
  split.
  - intros Hn Hin. destruct (map_char_to_int_is_Some ch Hin) as (i & Hi & _). congruence.
  - intros Hn. destruct (map_char_to_int !! ch) as [i|] eqn:E; [|done].
    apply map_char_to_int_lookup in E as [_ E]. exfalso. apply Hn.
    apply list_elem_of_lookup. eauto.
Qed.

Lemma encode_Raise (mapping : gmap Z Z) (word : list Z) (e : exn) :
  encode_word_to_int word mapping = Raise e
  <-> e = KeyError /\ Exists (fun ch => mapping !! ch = None) word.
Proof.
  induction word as [|ch word IH]; cbn [encode_word_to_int].
  - split; [done|]. intros [_ H]. by apply Exists_nil in H.
  - unfold py_getitem. destruct (mapping !! ch) as [i|] eqn:E; cbn [res_bind].
    + destruct (encode_word_to_int word mapping) as [l|e'] eqn:El; cbn [res_bind].
      * split; [done|]. intros [He H]. apply Exists_cons in H as [H|H]; [congruence|].
        by pose proof (proj2 IH (conj He H)).
      * split.
        -- intros [= ->]. destruct (proj1 IH eq_refl) as [-> H].
           split; [done|]. by apply Exists_cons_tl.
        -- intros [-> H]. apply Exists_cons in H as [H|H]; [congruence|].
           by apply IH.
    + split; [intros [= <-]|by intros [-> _]]. split; [done|]. by apply Exists_cons_hd.
Qed.

Lemma encode_outside_alphabet (word : list Z) :
  Exists (fun ch => ch ∉ chars) word ->
  encode_word_to_int word map_char_to_int = Raise KeyError.
Proof.
  intros Hex. apply encode_Raise. split; [done|].
  eapply Exists_impl; [done|]. intros ch Hch. by apply map_char_to_int_None.
Qed.

(** X2: [encode_word_to_int] with the notebook's mapping succeeds exactly
    on the words written in the 39 symbols of the alphabet, with one index of
    [0 .. 38] per symbol; on any other word (one with an upper-case letter,
    say) it raises [KeyError], and it raises nothing else. *)
Theorem encode_word_to_int_alphabet (word : list Z) :
  ((exists word_int, encode_word_to_int word map_char_to_int = Ok word_int)
     <-> Forall (fun ch => ch ∈ chars) word)
  /\ (forall word_int, encode_word_to_int word map_char_to_int = Ok word_int ->
        length word_int = length word /\ Forall (fun i => 0 <= i < 39) word_int)
  /\ (encode_word_to_int word map_char_to_int = Raise KeyError
        <-> Exists (fun ch => ch ∉ chars) word)
  /\ (forall e, encode_word_to_int word map_char_to_int = Raise e -> e = KeyError).
Proof.
  assert (Exists (fun ch => map_char_to_int !! ch = None) word
          <-> Exists (fun ch => ch ∉ chars) word) as Hex.
  { rewrite !Exists_exists. split; intros (ch & Hin & H); exists ch; split; try done;
      by apply map_char_to_int_None. }
  split_and!.
  - split.
    + intros [word_int He]. apply Forall_forall. intros ch Hin.
      destruct (decide (ch ∈ chars)) as [|Hn]; [done|].
      assert (encode_word_to_int word map_char_to_int = Raise KeyError) as Hr.
      { apply encode_Raise. split; [done|]. apply Hex, Exists_exists. eauto. }
      congruence.
    + intros Hall. destruct (encode_chars word Hall) as (word_int & He & _). eauto.
  - intros word_int He. pose proof (encoded_in_range _ _ He) as H.
    by rewrite n_is_39 in H.
  - rewrite encode_Raise, Hex. split; [by intros [_ ?]|by split].
  - by intros e [-> _]%encode_Raise.
Qed.

Lemma encode_word_to_int_alphabet_witness :
  length [0; 13; 13; 0] = length [97; 110; 110; 97]
  /\ Forall (fun i => 0 <= i < 39) [0; 13; 13; 0].
Proof.
  apply (proj1 (proj2 (encode_word_to_int_alphabet [97; 110; 110; 97]))).
  by vm_compute.
Defined.

(** X3: the word [decode_int_to_word] returns has one symbol for every
    index the mapping knows and three ('UNK') for every other index: it has
    length [k] only when no index is unknown, and is longer by two symbols
    per unknown index otherwise.  No index makes it raise. *)
Theorem decode_int_to_word_length (word_int : list Z) (mapping : gmap Z Z) :
  let unknown := filter (fun i => mapping !! i = None) word_int in
  length (decode_int_to_word word_int mapping)
  = (length word_int + 2 * length unknown)%nat
  /\ (length (decode_int_to_word word_int mapping) = length word_int
      <-> Forall (fun i => is_Some (mapping !! i)) word_int).
Proof.
  cbn zeta.
  assert (length (decode_int_to_word word_int mapping)
          = (length word_int
             + 2 * length (filter (fun i => mapping !! i = None) word_int))%nat) as Hlen.
  { induction word_int as [|i word_int IH]; [done|].
    rewrite decode_cons, length_app, IH, filter_cons. unfold decode_symbol.
    destruct (mapping !! i) eqn:E.
    - rewrite decide_False by done. simpl. lia.
    - rewrite decide_True by done. simpl. lia. }
  split; [done|]. rewrite Hlen. split.
  - intros H. assert (filter (fun i => mapping !! i = None) word_int = []) as Hnil.
    { apply length_zero_iff_nil. lia. }
    apply Forall_forall. intros i Hi.
    destruct (mapping !! i) eqn:E; [by eexists|].
    assert (i ∈ filter (fun i => mapping !! i = None) word_int) as Hin
      by by apply list_elem_of_filter.
    rewrite Hnil in Hin. by apply not_elem_of_nil in Hin.
  - intros Hall.
    assert (filter (fun i => mapping !! i = None) word_int = []) as ->; [|simpl; lia].
    clear Hlen. induction Hall as [|i word_int [? Hi] _ IH]; [done|].
    by rewrite filter_cons, decide_False by congruence.
Qed.

Lemma one_hot_rows_Raise (features : Z) (word_int : list Z) (placed : list (list Z)) :
  0 <= features ->
  Exists (fun pos => ~ (- features <= pos < features)) word_int ->
  one_hot_rows word_int (length placed)
    (placed ++ replicate (length word_int) (zero_row features))
  = Raise IndexError.
Proof.
  intros Hf Hex. revert placed.
  induction word_int as [|pos word_int IH]; intros placed; [by apply Exists_nil in Hex|].
  cbn [one_hot_rows length replicate]. unfold np_setitem2.
  rewrite list_lookup_middle by done. rewrite zero_row_len by done.
  destruct (decide (- features <= pos < features)) as [Hpos|Hpos].
  - rewrite np_index_mod by done. cbn [res_bind].
    rewrite insert_app_r_alt, Nat.sub_diag by done. cbn [insert list_insert].
    apply Exists_cons in Hex as [Hex|Hex]; [done|].
    specialize (IH Hex (placed ++ [<[Z.to_nat (pos mod features) := 1]> (zero_row features)])).
    rewrite length_app, <- !app_assoc in IH. cbn [length app] in IH.
    replace (length placed + 1)%nat with (S (length placed)) in IH by lia.
    exact IH.
  - by rewrite np_index_outside by lia.
Qed.

(** X4: [one_hot_encoding] on any array of indices.  A negative width is
    refused ([ValueError], even for no index at all); otherwise the
    construction succeeds exactly when every index lies in
    [-features, features), and raises [IndexError] when one does not.  When
    it succeeds there is one row per index, [features] wide, holding a
    single 1, at the index (counted from the end when negative), and 0
    everywhere else. *)
Theorem one_hot_encoding_total (word_int : list Z) (features : Z) :
  (features < 0 -> one_hot_encoding word_int features = Raise ValueError)
  /\ (0 <= features ->
      ~ Forall (fun pos => - features <= pos < features) word_int ->
      one_hot_encoding word_int features = Raise IndexError)
  /\ (0 <= features ->
      Forall (fun pos => - features <= pos < features) word_int ->
      exists word_encoded,
        one_hot_encoding word_int features = Ok word_encoded
        /\ length word_encoded = length word_int
        /\ forall i pos row, word_int !! i = Some pos -> word_encoded !! i = Some row ->
             length row = Z.to_nat features
             /\ forall j, (j < Z.to_nat features)%nat ->
                  row !! j = Some (if decide (Z.of_nat j = pos mod features) then 1 else 0)).
Proof.
  split_and!.
  - intros Hf. unfold one_hot_encoding, np_zeros2. by destruct (Z.ltb_spec features 0); [|lia].
  - intros Hf Hn. apply not_Forall_Exists in Hn; [|intros pos; apply _].
    unfold one_hot_encoding, np_zeros2. destruct (Z.ltb_spec features 0); [lia|].
    cbn [res_bind]. by apply (one_hot_rows_Raise features word_int []).
  - intros Hf Hall. rewrite one_hot_encoding_spec by done. eexists. split; [done|].
    split; [by rewrite length_map|].
    intros i pos row Hpos Hrow. rewrite lookup_map, Hpos in Hrow. injection Hrow as <-.
    split; [apply one_hot_vector_length|]. intros j Hj.
    pose proof (proj1 (Forall_forall _ _) Hall pos (list_elem_of_lookup_2 _ _ _ Hpos)) as Hr.
    cbn beta in Hr. assert (0 < features) by lia.
    pose proof (Z.mod_pos_bound pos features ltac:(lia)).
    rewrite one_hot_vector_lookup by (done || lia).
    destruct (decide (j = Z.to_nat (pos mod features))), (decide (Z.of_nat j = pos mod features));
      (done || lia).
Qed.

Lemma one_hot_encoding_total_witness :
  one_hot_encoding [2; 7; -8] 7 = Raise IndexError.
Proof.
  apply (proj1 (proj2 (one_hot_encoding_total [2; 7; -8] 7))); [lia|].
  intros H. apply Forall_cons_1 in H as [_ H]. apply Forall_cons_1 in H as [H _]. lia.
Defined.

(** ** Decoding arrays of any entries *)

Lemma one_hot_decoding_of_Z (word_encoded : list (list Z)) :
  one_hot_decoding_of Z.gtb word_encoded = one_hot_decoding word_encoded.
Proof.
  induction word_encoded as [|row rows IH]; [done|].
  cbn [one_hot_decoding_of one_hot_decoding]. by rewrite IH.
Qed.

Lemma argmax_scan_bound {A : Type} (gt : A -> A -> bool) (row : list A)
    (best : A) (besti i : nat) :
  (besti < i)%nat -> (argmax_scan gt best besti i row < i + length row)%nat.
Proof.
  revert best besti i. induction row as [|v row IH]; intros best besti i Hi.
  - simpl. lia.
  - cbn [argmax_scan length]. destruct (gt v best).
    + specialize (IH v i (S i)). lia.
    + specialize (IH best besti (S i)). lia.
Qed.

Lemma np_argmax_bound {A : Type} (gt : A -> A -> bool) (row : list A) :
  row <> [] -> exists pos, np_argmax gt row = Ok pos /\ 0 <= pos < len row.
Proof.
  destruct row as [|v row]; [done|]. intros _. eexists. split; [done|].
  pose proof (argmax_scan_bound gt row v 0 1). unfold len. cbn [length]. lia.
Qed.

Lemma one_hot_decoding_of_Ok {A : Type} (gt : A -> A -> bool) (word_encoded : list (list A)) :
  Forall (fun row => row <> []) word_encoded ->
  exists word_int,
    one_hot_decoding_of gt word_encoded = Ok word_int
    /\ Forall2 (fun row pos => 0 <= pos < len row) word_encoded word_int.
Proof.
  induction 1 as [|row rows Hrow _ (word_int & Hd & Hall)].
  - exists []. split; [done|constructor].
  - destruct (np_argmax_bound gt row Hrow) as (pos & Hpos & Hr).
    exists (pos :: word_int). cbn [one_hot_decoding_of]. rewrite Hpos, Hd.
    split; [done|by constructor].
Qed.

Lemma one_hot_decoding_of_Raise {A : Type} (gt : A -> A -> bool) (word_encoded : list (list A)) :
  Exists (fun row => row = []) word_encoded ->
  one_hot_decoding_of gt word_encoded = Raise ValueError.
Proof.
  induction 1 as [row rows ->|row rows _ IH]; [done|].
  cbn [one_hot_decoding_of]. destruct (np_argmax gt row) as [pos|e] eqn:E.
  - by rewrite IH.
  - destruct row; [|done]. by injection E as <-.
Qed.

(** X5: [one_hot_decoding] on any array, of integers or of the floats a
    model predicts.  It raises [ValueError] exactly when some row has no
    entry (a width of 0); otherwise it returns one index per row, each a
    position of its row ([0 <= index < width]); and on integer rows that
    index is the position of the greatest entry, the lowest one on ties. *)
Theorem one_hot_decoding_total {A : Type} (gt : A -> A -> bool)
    (word_encoded : list (list A)) :
  (Exists (fun row => row = []) word_encoded
     <-> one_hot_decoding_of gt word_encoded = Raise ValueError)
  /\ (Forall (fun row => row <> []) word_encoded
     <-> exists word_int,
           one_hot_decoding_of gt word_encoded = Ok word_int
           /\ Forall2 (fun row pos => 0 <= pos < len row) word_encoded word_int)
  /\ (forall rows word_int,
        one_hot_decoding rows = Ok word_int ->
        Forall2 (fun row pos => first_max row (Z.to_nat pos)) rows word_int).
Proof.
  assert (Forall (fun row : list A => row <> []) word_encoded
          \/ Exists (fun row : list A => row = []) word_encoded) as Hcases.
  { induction word_encoded as [|row rows [IH|IH]].
    - left. constructor.
    - destruct row; [right; by constructor|left; by constructor].
    - right. by constructor. }
  split_and!.
  - split; [apply one_hot_decoding_of_Raise|]. intros Hr.
    destruct Hcases as [Hall|Hex]; [|done].
    destruct (one_hot_decoding_of_Ok gt word_encoded Hall) as (? & ? & _). congruence.
  - split; [apply one_hot_decoding_of_Ok|]. intros (word_int & Hd & _).
    destruct Hcases as [Hall|Hex]; [done|].
    rewrite one_hot_decoding_of_Raise in Hd by done. done.
  - clear. intros rows. induction rows as [|row rows IH]; intros word_int.
    + intros [= <-]. constructor.
    + cbn [one_hot_decoding].
      destruct (np_argmax Z.gtb row) as [pos|] eqn:E; [|done]. cbn [res_bind].
      destruct (one_hot_decoding rows) as [l|]; [|done]. cbn [res_bind].
      intros [= <-]. constructor; [|by apply IH].
      destruct row as [|v row]; [done|].
      destruct (np_argmax_first_max (v :: row)) as (p & Hp & Hfm); [done|].
      rewrite E in Hp. injection Hp as ->. by rewrite Nat2Z.id.
Qed.

Lemma one_hot_decoding_total_witness :
  one_hot_decoding_of Z.gtb [[0; 1]; []; [1; 0]] = Raise ValueError.
Proof.
  apply (proj1 (one_hot_decoding_total Z.gtb [[0; 1]; []; [1; 0]])).
  apply Exists_cons_tl, Exists_cons_hd. reflexivity.
Defined.

(** ** The list codecs *)

Lemma res_map_Forall2 {A B : Type} (f : A -> res B) (l : list A) (k : list B) :
  Forall2 (fun a b => f a = Ok b) l k -> res_map f l = Ok k.
Proof.
  induction 1 as [|a b l k Hab _ IH]; [done|].
  cbn [res_map]. by rewrite Hab, IH.
Qed.

Lemma res_map_Raise {A B : Type} (f : A -> res B) (l : list A) (e : exn) :
  Forall (fun a => (exists b, f a = Ok b) \/ f a = Raise e) l ->
  Exists (fun a => f a = Raise e) l ->
  res_map f l = Raise e.
Proof.
  induction 1 as [|a l Ha _ IH]; intros Hex; [by apply Exists_nil in Hex|].
  cbn [res_map]. destruct Ha as [[b Hb]|Ha]; [|by rewrite Ha].
  rewrite Hb. cbn [res_bind]. apply Exists_cons in Hex as [Hex|Hex]; [congruence|].
  by rewrite IH.
Qed.

Lemma decode_encoded (word word_int : list Z) :
  Forall2 (fun ch i => map_char_to_int !! ch = Some i) word word_int ->
  decode_int_to_word word_int map_int_to_char = word.
Proof.
  induction 1 as [|ch i word word_int Hi _ IH]; [done|].
  rewrite decode_cons, IH. unfold decode_symbol.
  apply mappings_inverse in Hi. by rewrite Hi.
Qed.

Lemma encode_then_one_hot (word : list Z) :
  Forall (fun ch => ch ∈ chars) word ->
  exists word_int,
    encode_word_to_int word map_char_to_int = Ok word_int
    /\ one_hot_encoding word_int n = Ok (map (one_hot_vector n) word_int)
    /\ one_hot_decoding (map (one_hot_vector n) word_int) = Ok word_int
    /\ decode_int_to_word word_int map_int_to_char = word.
Proof.
  intros Hw. destruct (encode_chars word Hw) as (word_int & He & _ & _ & Hd).
  destruct (encoded_in_range _ _ He) as [_ Hr].
  exists word_int. split_and!; [done| | |done].
  - apply one_hot_encoding_in_range; [done|]. rewrite n_is_39. lia.
  - by apply one_hot_decoding_vectors.
Qed.

(** X6: [encode_list] and [decode_list] are a round trip on the words of
    the alphabet: encoding a list of such words with the notebook's mapping
    succeeds, decoding the result gives the words back, and the arrays are
    the ones the loop filling [X_male_encoded] builds.  A list holding a word
    with a symbol outside the alphabet makes [encode_list] raise
    [KeyError]. *)
Theorem list_codec_round_trip (array : list (list Z)) :
  (Forall (Forall (fun ch => ch ∈ chars)) array ->
     exists encoded ints,
       encode_list array map_char_to_int = Ok encoded
       /\ decode_list Z.gtb encoded map_int_to_char = Ok array
       /\ encode_names array = Ok (ints, encoded))
  /\ (~ Forall (Forall (fun ch => ch ∈ chars)) array ->
     encode_list array map_char_to_int = Raise KeyError).
Proof.
  unfold encode_list, decode_list. change (Z.of_nat (size map_char_to_int)) with n.
  split.
  - induction 1 as [|word array Hword _ (encoded & ints & He & Hd & Hn)].
    + by exists [], [].
    + destruct (encode_then_one_hot word Hword) as (word_int & H1 & H2 & H3 & H4).
      exists (map (one_hot_vector n) word_int :: encoded), (word_int :: ints).
      cbn [res_map encode_names]. rewrite H1. cbn [res_bind]. rewrite H2, He, Hn.
      cbn [res_bind fst snd]. rewrite one_hot_decoding_of_Z, H3. cbn [res_bind].
      by rewrite Hd, H4.
  - intros Hn. apply not_Forall_Exists in Hn; [|intros word; apply _].
    apply res_map_Raise.
    + apply Forall_forall. intros word _. cbn beta.
      destruct (decide (Forall (fun ch => ch ∈ chars) word)) as [Hw|Hw].
      * left. destruct (encode_then_one_hot word Hw) as (word_int & H1 & H2 & _).
        rewrite H1. cbn [res_bind]. eauto.
      * right. apply not_Forall_Exists in Hw; [|intros ch; apply _].
        by rewrite (encode_outside_alphabet word Hw).
    + eapply Exists_impl; [done|]. intros word Hw. cbn beta in *.
      apply not_Forall_Exists in Hw; [|intros ch; apply _].
      by rewrite (encode_outside_alphabet word Hw).
Qed.

Lemma list_codec_round_trip_witness :
  exists encoded ints,
    encode_list [[106; 111; 115; 233]; [97; 110; 97]] map_char_to_int = Ok encoded
    /\ decode_list Z.gtb encoded map_int_to_char = Ok [[106; 111; 115; 233]; [97; 110; 97]]
    /\ encode_names [[106; 111; 115; 233]; [97; 110; 97]] = Ok (ints, encoded).
Proof.
  apply (proj1 (list_codec_round_trip [[106; 111; 115; 233]; [97; 110; 97]])).
  repeat constructor; apply list_elem_of_In; vm_compute; tauto.
Defined.

Lemma decode_list_words {A : Type} (gt : A -> A -> bool)
    (array : list (list (list A))) :
  Forall (Forall (fun row => (0 < length row <= 39)%nat)) array ->
  exists words,
    decode_list gt array map_int_to_char = Ok words
    /\ Forall2 (fun word_encoded word =>
                  length word = length word_encoded
                  /\ Forall (fun ch => ch ∈ chars) word) array words.
Proof.
  unfold decode_list. induction 1 as [|word_encoded array Hrows _ (words & Hd & Hall)].
  - exists []. split; [done|constructor].
  - destruct (one_hot_decoding_of_Ok gt word_encoded) as (word_int & Hw & Hpos).
    { eapply Forall_impl; [done|]. intros row Hrow ->. simpl in Hrow. lia. }
    assert (Forall (fun i => 0 <= i < 39) word_int) as Hr.
    { apply Forall_forall. intros i [j Hj]%list_elem_of_lookup.
      destruct (Forall2_lookup_r _ _ _ _ _ Hpos Hj) as (row & Hrow & Hi).
      pose proof (proj1 (Forall_forall _ _) Hrows row (list_elem_of_lookup_2 _ _ _ Hrow)) as Hlen.
      cbn beta in Hlen. unfold len in Hi. lia. }
    destruct (decode_indices word_int Hr) as (word & Hword & Hch & He).
    exists (word :: words). cbn [res_map]. rewrite Hw. cbn [res_bind]. rewrite Hd, Hword.
    split; [done|]. constructor; [|done]. split; [|done].
    destruct (encoded_in_range _ _ He) as [<- _]. symmetry. by eapply Forall2_length.
Qed.

(** X7: [decode_list] never meets an unknown index on arrays as a model
    predicts them.  On any arrays whose rows are between 1 and 39 entries
    wide, whatever the entries and their order, it succeeds, and every word
    it returns has one symbol per row, all of them symbols of the alphabet:
    the placeholder 'UNK' does not occur. *)
Theorem decode_list_in_alphabet {A : Type} (gt : A -> A -> bool)
    (array : list (list (list A))) :
  Forall (Forall (fun row => (0 < length row <= 39)%nat)) array ->
  exists words,
    decode_list gt array map_int_to_char = Ok words
    /\ Forall2 (fun word_encoded word =>
                  length word = length word_encoded
                  /\ Forall (fun ch => ch ∈ chars) word) array words.
Proof. apply decode_list_words. Qed.

Lemma decode_list_in_alphabet_witness :
  exists words,
    decode_list Z.gtb [[[3; 9; 9]; [5; 1; 0]]; [[0; 0; 7]]] map_int_to_char = Ok words
    /\ Forall2 (fun word_encoded word =>
                  length word = length word_encoded
                  /\ Forall (fun ch => ch ∈ chars) word)
         [[[3; 9; 9]; [5; 1; 0]]; [[0; 0; 7]]] words.
Proof.
  apply (decode_list_in_alphabet Z.gtb [[[3; 9; 9]; [5; 1; 0]]; [[0; 0; 7]]]).
  repeat constructor; simpl; lia.
Defined.

(** ** Decoding a padded batch *)

Lemma one_hot_decoding_app (a b : list (list Z)) :
  one_hot_decoding (a ++ b)
  = do x <- one_hot_decoding a; do y <- one_hot_decoding b; Ok (x ++ y).
Proof.
  induction a as [|row a IH]; cbn [app one_hot_decoding].
  - by destruct (one_hot_decoding b).
  - destruct (np_argmax Z.gtb row); cbn [res_bind]; [|done]. rewrite IH.
    destruct (one_hot_decoding a); cbn [res_bind]; [|done].
    by destruct (one_hot_decoding b).
Qed.

Lemma one_hot_decoding_zero_rows (k : nat) :
  one_hot_decoding (replicate k (zero_row n)) = Ok (replicate k 0).
Proof.
  induction k as [|k IH]; [done|]. cbn [replicate one_hot_decoding].
  rewrite (np_argmax_is _ 0) by (apply first_max_zero_row; by rewrite n_is_39).
  by rewrite IH.
Qed.

Lemma decode_zeros (k : nat) :
  decode_int_to_word (replicate k 0) map_int_to_char = replicate k 97.
Proof.
  induction k as [|k IH]; [done|]. cbn [replicate]. rewrite decode_cons, IH.
  unfold decode_symbol.
  by assert (map_int_to_char !! 0 = Some 97) as -> by by vm_compute.
Qed.

Lemma decode_right_padded (T : nat) (word word_int : list Z) :
  Forall2 (fun ch i => map_char_to_int !! ch = Some i) word word_int ->
  (do ints <- one_hot_decoding_of Z.gtb (right_padded T word_int);
   Ok (decode_int_to_word ints map_int_to_char))
  = Ok (word ++ replicate (T - length word) 97).
Proof.
  intros Hw. unfold right_padded.
  rewrite one_hot_decoding_of_Z, one_hot_decoding_app, one_hot_decoding_zero_rows.
  rewrite one_hot_decoding_vectors.
  2: { destruct (encoded_in_range word word_int) as [_ Hr]; [by apply encode_Ok|done]. }
  cbn [res_bind]. rewrite decode_app, decode_zeros, (decode_encoded word word_int Hw).
  by rewrite (Forall2_length _ _ _ Hw).
Qed.

(** X8: decoding the padded batches.  On a corpus as the preparation
    expects it (names not empty, in the alphabet once lower-cased,
    lower-casing keeping their lengths), [decode_list] applied to
    [X_male_padded] returns every name followed by as many 'a' as it has
    padding rows, and applied to [y_male_padded] every target followed by
    as many 'a': the padding reads as the first letter of the alphabet. *)
Theorem padded_batch_decodes (lower : list Z -> list Z) (names : list (list Z)) :
  names <> [] ->
  Forall (fun name => lower name <> []
                      /\ length (lower name) = length name
                      /\ Forall (fun ch => ch ∈ chars) (lower name)) names ->
  exists p Xp Yp (T : nat),
    prepare lower names = Ok p
    /\ timesteps p = Z.of_nat T
    /\ X_male_padded p = Padded3 Xp /\ y_male_padded p = Padded3 Yp
    /\ decode_list Z.gtb Xp map_int_to_char
       = Ok (map (fun name => name ++ replicate (T - length name) 97) (X_male p))
    /\ decode_list Z.gtb Yp map_int_to_char
       = Ok (map (fun target => target ++ replicate (T - length target) 97) (y_male p)).
Proof.
  intros Hne Hnames.
  destruct (prepare_spec lower names Hne Hnames) as (longest & ints & Hin & Hle & Hall & Hp).
  eexists _, _, _, (length longest). split; [exact Hp|].
  cbn [timesteps X_male_padded y_male_padded X_male y_male].
  split_and!; try done; unfold decode_list; apply res_map_Forall2.
  - clear Hp Hin Hle Hne. induction Hall as [|name word_int names ints He _ IH]; [constructor|].
    apply Forall_cons_1 in Hnames as [_ Hnames].
    cbn [map]. constructor; [|by apply IH].
    apply decode_right_padded. by apply encode_Ok.
  - clear Hp Hin Hle Hne. induction Hall as [|name word_int names ints He _ IH]; [constructor|].
    apply Forall_cons_1 in Hnames as [(Hnn & _) Hnames].
    cbn [map]. constructor; [|by apply IH].
    apply decode_right_padded. apply encode_Ok in He. unfold shifted.
    apply Forall2_app; [by apply Forall2_drop|].
    constructor; [by vm_compute|constructor].
Qed.

Lemma padded_batch_decodes_witness :
  exists p Xp, prepare (fun name => name) [[106; 111; 115; 101]; [97; 110]] = Ok p
    /\ X_male_padded p = Padded3 Xp
    /\ decode_list Z.gtb Xp map_int_to_char = Ok [[106; 111; 115; 101]; [97; 110; 97; 97]].
Proof.
  destruct (padded_batch_decodes (fun name => name) [[106; 111; 115; 101]; [97; 110]])
    as (p & Xp & Yp & T & Hp & HT & HX & HY & HdX & HdY).
  - done.
  - repeat constructor; try done; apply list_elem_of_In; vm_compute; tauto.
  - exists p, Xp. split_and!; [done|done|]. rewrite HdX.
    vm_compute in Hp. injection Hp as <-. cbn [timesteps] in HT.
    assert (T = 4%nat) as -> by lia. reflexivity.
Defined.

(** ** Padding in general *)

Lemma sample_shape_None (sequences : list (list (list Z))) :
  sample_shape sequences = None <-> Forall (fun s => s = []) sequences.
Proof.
  induction sequences as [|[|row s] sequences IH]; cbn [sample_shape].
  - split; [constructor|done].
  - rewrite IH. split; [by constructor|by intros [_ ?]%Forall_cons_1].
  - split; [done|]. by intros [? _]%Forall_cons_1.
Qed.

Lemma sample_shape_Some (sequences : list (list (list Z))) (features : nat) :
  sample_shape sequences = Some features ->
  exists s row, s ∈ sequences /\ row ∈ s /\ length row = features.
Proof.
  induction sequences as [|[|row s] sequences IH]; cbn [sample_shape]; [done| |].
  - intros (s & row & Hs & Hrow)%IH. exists s, row. split; [by right|done].
  - intros [= <-]. exists (row :: s), row. split_and!; [by left|by left|done].
Qed.

Lemma pad_one_total (maxlen features : nat) (s : list (list Z)) :
  (Forall (fun row => length row = features) s ->
     pad_one maxlen features s
     = Ok (take maxlen s ++ replicate (maxlen - length s) (replicate features 0)))
  /\ (~ Forall (fun row => length row = features) s ->
     pad_one maxlen features s = Raise ValueError).
Proof.
  unfold pad_one. destruct s as [|row s].
  - split; [by rewrite take_nil, Nat.sub_0_r|]. intros H. destruct H. constructor.
  - destruct (forallb _ _) eqn:E.
    + split.
      * intros _. do 3 f_equal. rewrite length_take. lia.
      * intros Hn. exfalso. apply Hn, Forall_forall. intros r Hr%list_elem_of_In.
        apply (proj1 (forallb_forall _ _) E) in Hr. by apply Nat.eqb_eq in Hr.
    + split; [|done]. intros Hall. exfalso.
      assert (forallb (fun row0 => (length row0 =? features)%nat) (row :: s) = true); [|congruence].
      apply forallb_forall. intros r Hr%list_elem_of_In. apply Nat.eqb_eq.
      by apply (proj1 (Forall_forall _ _) Hall).
Qed.

(** [pad_sequences], at the arguments the notebook passes, on any
    sequences.  A negative [maxlen] is refused.  When every sequence is empty
    the result is a [(num_samples, maxlen)] array of zeros.  Otherwise the
    width is taken from the first row of the first sequence that has rows;
    if some row of some sequence has another width the call raises
    [ValueError], and if none has, entry [idx] of the result is sequence
    [idx] cut after [maxlen] rows (a longer sequence loses its last rows
    silently) and followed by all-zero rows up to [maxlen] rows. *)
Lemma pad_sequences_total (sequences : list (list (list Z))) (maxlen : Z) :
  (maxlen < 0 -> pad_sequences sequences maxlen = Raise ValueError)
  /\ (0 <= maxlen -> Forall (fun s => s = []) sequences ->
      pad_sequences sequences maxlen
      = Ok (Padded2 (replicate (length sequences) (replicate (Z.to_nat maxlen) 0))))
  /\ (0 <= maxlen -> forall features, sample_shape sequences = Some features ->
      (~ Forall (Forall (fun row => length row = features)) sequences ->
         pad_sequences sequences maxlen = Raise ValueError)
      /\ (Forall (Forall (fun row => length row = features)) sequences ->
         exists x,
           pad_sequences sequences maxlen = Ok (Padded3 x)
           /\ x = map (fun s => take (Z.to_nat maxlen) s
                                ++ replicate (Z.to_nat maxlen - length s)
                                     (replicate features 0)) sequences
           /\ Forall (fun rows => length rows = Z.to_nat maxlen
                                  /\ Forall (fun row => length row = features) rows) x)).
Proof.
  unfold pad_sequences. split_and!.
  - intros Hm. by destruct (Z.ltb_spec maxlen 0); [|lia].
  - intros Hm Hall. destruct (Z.ltb_spec maxlen 0); [lia|].
    by rewrite (proj2 (sample_shape_None sequences) Hall).
  - intros Hm features Hshape. destruct (Z.ltb_spec maxlen 0); [lia|]. rewrite Hshape.
    split.
    + intros Hn. apply not_Forall_Exists in Hn; [|intros s; apply _].
      rewrite (res_map_Raise _ _ ValueError); [done| |].
      * apply Forall_forall. intros s _. cbn beta.
        destruct (decide (Forall (fun row => length row = features) s)) as [Hs|Hs].
        -- left. rewrite (proj1 (pad_one_total _ _ _) Hs). eauto.
        -- right. apply (proj2 (pad_one_total _ _ _) Hs).
      * eapply Exists_impl; [done|]. intros s Hs. apply (proj2 (pad_one_total _ _ _) Hs).
    + intros Hall. eexists. split_and!; [|done|].
      * rewrite (res_map_ok _ (fun s => take (Z.to_nat maxlen) s
                                ++ replicate (Z.to_nat maxlen - length s)
                                     (replicate features 0))); [done|].
        eapply Forall_impl; [done|]. intros s Hs. apply (proj1 (pad_one_total _ _ _) Hs).
      * apply Forall_forall. intros rows (s & <- & Hs)%list_elem_of_In%in_map_iff.
        apply list_elem_of_In in Hs.
        pose proof (proj1 (Forall_forall _ _) Hall s Hs) as Hw. cbn beta in Hw. split.
        -- rewrite length_app, length_take, length_replicate. lia.
        -- apply Forall_app. split; [by apply Forall_take|].
           apply Forall_replicate, length_replicate.
Qed.

(** ** When the preparation succeeds *)

Lemma pad_sequences_same_width (sequences : list (list (list Z))) (T w : nat) :
  Forall (Forall (fun row => length row = w)) sequences ->
  exists x, pad_sequences sequences (Z.of_nat T) = Ok x.
Proof.
  intros Hall. destruct (sample_shape sequences) as [features|] eqn:Hshape.
  - destruct (sample_shape_Some _ _ Hshape) as (s & row & Hs & Hrow & Hlen).
    assert (features = w) as ->.
    { pose proof (proj1 (Forall_forall _ _) Hall s Hs) as Hw. cbn beta in Hw.
      rewrite <- Hlen. by apply (proj1 (Forall_forall _ _) Hw). }
    destruct (proj2 (proj2 (proj2 (pad_sequences_total sequences (Z.of_nat T)))
                       ltac:(lia) w Hshape) Hall) as (x & Hx & _).
    eauto.
  - apply sample_shape_None in Hshape.
    rewrite (proj1 (proj2 (pad_sequences_total sequences (Z.of_nat T)))) by (lia || done).
    eauto.
Qed.

Lemma encode_names_Raise (names : list (list Z)) :
  ~ Forall (Forall (fun ch => ch ∈ chars)) names ->
  encode_names names = Raise KeyError.
Proof.
  induction names as [|name names IH]; intros Hn; [destruct Hn; constructor|].
  cbn [encode_names].
  destruct (decide (Forall (fun ch => ch ∈ chars) name)) as [Hname|Hname].
  - destruct (encode_then_one_hot name Hname) as (word_int & H1 & H2 & _).
    rewrite H1. cbn [res_bind]. rewrite H2. cbn [res_bind].
    rewrite IH; [done|]. intros Hall. apply Hn. by constructor.
  - apply not_Forall_Exists in Hname; [|intros ch; apply _].
    by rewrite (encode_outside_alphabet name Hname).
Qed.

Lemma encode_names_encode_list (names : list (list Z))
    (r : list (list Z) * list (list (list Z))) :
  encode_names names = Ok r -> encode_list names map_char_to_int = Ok r.2.
Proof.
  unfold encode_list. change (Z.of_nat (size map_char_to_int)) with n.
  revert r. induction names as [|name names IH]; intros r; cbn [encode_names res_map].
  - by intros [= <-].
  - destruct (encode_word_to_int name map_char_to_int) as [word_int|]; [|done].
    cbn [res_bind]. destruct (one_hot_encoding word_int n) as [word_encoded|]; [|done].
    cbn [res_bind]. destruct (encode_names names) as [rest|]; [|done].
    cbn [res_bind]. intros [= <-]. by rewrite (IH rest).
Qed.

(** X9: when the preparation cells succeed and what they raise.  On an
    empty corpus they raise [ValueError] (there is no longest name); on a
    corpus holding a name that, lower-cased, has a symbol outside the
    alphabet they raise [KeyError]; on every other corpus they succeed, with
    [m] the number of names, [timesteps] the length of a longest name as it
    was before lower-casing, [X_male] the lower-cased names and [y_male]
    each of them without its first symbol and with the dot added. *)
Theorem prepare_total (lower : list Z -> list Z) (names : list (list Z)) :
  (names = [] -> prepare lower names = Raise ValueError)
  /\ (names <> [] -> ~ Forall (Forall (fun ch => ch ∈ chars)) (map lower names) ->
      prepare lower names = Raise KeyError)
  /\ (names <> [] -> Forall (Forall (fun ch => ch ∈ chars)) (map lower names) ->
      exists p longest,
        prepare lower names = Ok p
        /\ m p = len names
        /\ longest ∈ names
        /\ Forall (fun name => (length name <= length longest)%nat) names
        /\ timesteps p = len longest
        /\ X_male p = map lower names
        /\ y_male p = map (shifted DOT) (X_male p)
        /\ encode_list (X_male p) map_char_to_int = Ok (X_male_encoded p)).
Proof.
  split_and!.
  - by intros ->.
  - intros Hne Hn. destruct (py_max_len_spec names Hne) as (longest & Hmax & _).
    unfold prepare. rewrite Hmax. cbn [res_bind]. by rewrite encode_names_Raise.
  - intros Hne Halpha.
    destruct (py_max_len_spec names Hne) as (longest & Hmax & Hin & Hle).
    destruct (encode_names_spec (map lower names) Halpha) as (ints & Henc & Hall).
    destruct (pad_sequences_same_width (map (map (one_hot_vector n)) ints)
                (length longest) (Z.to_nat n)) as (Xp & HXp).
    { apply Forall_forall. intros l (word_int & <- & _)%list_elem_of_In%in_map_iff.
      apply one_hot_rows_width. }
    destruct (pad_sequences_same_width
                (map (fun word_int => map (one_hot_vector n) (shifted 37 word_int)) ints)
                (length longest) (Z.to_nat n)) as (Yp & HYp).
    { apply Forall_forall. intros l (word_int & <- & _)%list_elem_of_In%in_map_iff.
      apply one_hot_rows_width. }
    unfold prepare. rewrite Hmax. cbn [res_bind]. rewrite Henc. cbn [res_bind fst snd].
    rewrite dot_index. cbn [res_bind]. rewrite dot_encoded_is. cbn [res_bind].
    rewrite (res_map_ok _ (fun word_int => map (fun v => v + 37) (drop 1 word_int))).
    2: { apply Forall_forall. intros word_int _. apply np_add_scalar. }
    cbn [res_bind].
    rewrite (res_map_ok _ (fun l => drop 1 l ++ [one_hot_vector n 37])).
    2: { apply Forall_forall. intros l (word_int & <- & _)%list_elem_of_In%in_map_iff.
         apply np_concatenate0_ok with (Z.to_nat n).
         - rewrite skipn_map. apply one_hot_rows_width.
         - apply (one_hot_rows_width [37]). }
    cbn [res_bind]. rewrite map_map.
    rewrite (map_ext (fun word_int => drop 1 (map (one_hot_vector n) word_int) ++ [one_hot_vector n 37])
               (fun word_int => map (one_hot_vector n) (shifted 37 word_int)))
      by (intros; apply shifted_map).
    change (len longest) with (Z.of_nat (length longest)).
    rewrite HXp. cbn [res_bind]. rewrite HYp. cbn [res_bind].
    eexists _, longest. split; [done|].
    cbn [m timesteps X_male y_male X_male_encoded]. split_and!; try done.
    apply (encode_names_encode_list _ _ Henc).
Qed.

Lemma prepare_total_witness :
  prepare (fun name => name) [[106; 111; 115; 101]; [74; 117; 97; 110]] = Raise KeyError.
Proof.
  apply (proj1 (proj2 (prepare_total (fun name => name)
                         [[106; 111; 115; 101]; [74; 117; 97; 110]]))); [done|].
  intros H. apply Forall_cons_1 in H as [_ H]. apply Forall_cons_1 in H as [H _].
  apply Forall_cons_1 in H as [H _]. revert H.
  apply (bool_decide_unpack (74 ∉ chars)). by vm_compute.
Defined.

(** ** What a turn of the generation loop does *)

Lemma gen_body_Ok {prob rng : Type} (predict : list (list Z) -> list (list prob))
    (select : rng -> list prob -> res (Z * rng)) (st st' : gen_state rng) :
  gen_body predict select st = Ok st' ->
  exists y_n i,
    np_last (predict (st_x st)) = Ok y_n
    /\ select (st_rng st) y_n = Ok (i, st_rng st')
    /\ 0 <= i < 39
    /\ map_char_to_int !! st_c st' = Some i
    /\ st_x st' = st_x st ++ [one_hot_vector n i]
    /\ st_word st' = st_word st ++ [st_c st'].
Proof.
  unfold gen_body. intros H.
  destruct (np_last _) as [y_n|] eqn:Hy; [|done]. cbn [res_bind] in H.
  destruct (select _ _) as [[i g']|] eqn:Hs; [|done]. cbn [res_bind fst snd] in H.
  rewrite one_hot_encoding_single in H.
  destruct (n <? 0); [done|].
  destruct (Z.leb_spec (- n) i), (Z.ltb_spec i n); cbn [andb] in H; try done.
  cbn [res_bind] in H. unfold py_getitem in H.
  destruct (map_int_to_char !! i) as [c|] eqn:Hc; [|done]. cbn [res_bind] in H.
  pose proof (proj1 (map_int_to_char_lookup c i) Hc) as [Hi Hlk].
  apply lookup_lt_Some in Hlk. rewrite chars_length in Hlk.
  rewrite Z.mod_small in H by lia.
  unfold np_reshape_row in H. cbn [concat] in H. rewrite app_nil_r in H.
  destruct (np_concatenate0 _ _) as [x|] eqn:Hx; [|done]. cbn [res_bind] in H.
  injection H as <-. cbn [st_x st_word st_c st_rng].
  exists y_n, i. split_and!; [done|done|done|lia|by apply mappings_inverse| |done].
  unfold np_concatenate0 in Hx. destruct (st_x st) as [|ra x0]; [by injection Hx as <-|].
  destruct (_ =? _)%nat; [by injection Hx as <-|done].
Qed.

Lemma gen_loop_invariant {prob rng : Type} (predict : list (list Z) -> list (list prob))
    (select : rng -> list prob -> res (Z * rng))
    (I : gen_state rng -> Prop) (fuel : nat) (st st' : gen_state rng) :
  (forall s s', I s -> gen_body predict select s = Ok s' -> I s') ->
  I st ->
  gen_loop predict select fuel st = Running st' -> I st'.
Proof.
  intros Hstep. revert st. induction fuel as [|fuel IH]; intros st Hst; rewrite gen_loop_unfold;
    destruct (st_c st =? DOT); try done.
  - by intros [= <-].
  - destruct (gen_body predict select st) as [s'|] eqn:Hb; [|done].
    apply IH. by eapply Hstep.
Qed.

(** X10: the loop feeds the model its own output.  While a generation run
    of either cell is going on, every symbol of [word] is a symbol of the
    alphabet, and the input [x] the model is given next is the all-zero row
    followed by the one-hot rows of the symbols of [word], in order; and the
    word a finished run prints is written in the alphabet. *)
Theorem generation_feeds_back {prob rng : Type}
    (gt : prob -> prob -> bool)
    (random_choice : rng -> list Z -> list prob -> res (Z * rng))
    (predict : list (list Z) -> list (list prob))
    (select : rng -> list prob -> res (Z * rng)) (g : rng) (fuel : nat) :
  select = select_greedy gt \/ select = select_stochastic random_choice ->
  (forall st, generation predict select fuel g = Running st ->
     exists word_int,
       encode_word_to_int (st_word st) map_char_to_int = Ok word_int
       /\ st_x st = zero_row n :: map (one_hot_vector n) word_int)
  /\ (forall w, generation predict select fuel g = Finished w ->
     Forall (fun ch => ch ∈ chars) w).
Proof.
  intros _. unfold generation. rewrite gen_init_Ok.
  set (st0 := {| st_x := [zero_row n]; st_word := []; st_c := 45; st_rng := g |}).
  set (I := fun st : gen_state rng =>
              exists word_int,
                encode_word_to_int (st_word st) map_char_to_int = Ok word_int
                /\ st_x st = zero_row n :: map (one_hot_vector n) word_int).
  assert (forall s s', I s -> gen_body predict select s = Ok s' -> I s') as Hstep.
  { intros s s' (word_int & He & Hx) Hb.
    destruct (gen_body_Ok _ _ _ _ Hb) as (y_n & i & _ & _ & Hi & Hc & Hx' & Hw).
    exists (word_int ++ [i]). rewrite Hw, encode_app, He. cbn [encode_word_to_int res_bind].
    unfold py_getitem. rewrite Hc. cbn [res_bind]. split; [done|].
    by rewrite Hx', Hx, map_app. }
  assert (I st0) as H0 by by exists [].
  split.
  - intros st Hrun. by apply (gen_loop_invariant predict select I fuel st0 st).
  - intros w Hw.
    destruct (gen_loop_Finished predict select fuel st0 w) as (j & st & st' & _ & Hrun & Hb & _ & ->);
      [done|done|].
    pose proof (gen_loop_invariant predict select I j st0 st Hstep H0 Hrun) as Hst.
    destruct (Hstep st st' Hst Hb) as (word_int & He & _).
    apply encode_Ok in He. apply Forall_forall. intros ch [k Hk]%list_elem_of_lookup.
    destruct (Forall2_lookup_l _ _ _ _ _ He Hk) as (i & _ & Hi).
    apply map_char_to_int_lookup in Hi as [_ Hi]. by apply list_elem_of_lookup_2 in Hi.
Qed.

Lemma generation_feeds_back_witness :
  exists st word_int,
    generation spell_ab (select_greedy Z.gtb) 2 [0; 1; 37] = Running st
    /\ encode_word_to_int (st_word st) map_char_to_int = Ok word_int
    /\ st_x st = zero_row n :: map (one_hot_vector n) word_int.
Proof.
  destruct (generation spell_ab (select_greedy Z.gtb) 2 [0; 1; 37]) as [w|e|st] eqn:E.
  1, 2: by vm_compute in E.
  destruct (proj1 (generation_feeds_back Z.gtb scripted_choice spell_ab
                     (select_greedy Z.gtb) [0; 1; 37] 2 (or_introl eq_refl)) st E)
    as (word_int & He & Hx).
  exists st, word_int. split; [reflexivity|]. split; assumption.
Defined.

(** ** What a generation run can raise *)

Lemma gen_body_runs {prob rng : Type} (predict : list (list Z) -> list (list prob))
    (select : rng -> list prob -> res (Z * rng)) (st : gen_state rng)
    (y_n : list prob) (i : Z) (g' : rng) :
  Forall (fun row => length row = Z.to_nat n) (st_x st) ->
  np_last (predict (st_x st)) = Ok y_n ->
  select (st_rng st) y_n = Ok (i, g') ->
  0 <= i < 39 ->
  exists st', gen_body predict select st = Ok st'
              /\ st_x st' = st_x st ++ [one_hot_vector n i].
Proof.
  intros Hw Hy Hs Hi.
  destruct (map_int_to_char !! i) as [c|] eqn:Hc.
  2: { apply map_int_to_char_None in Hc. lia. }
  eexists. split.
  - unfold gen_body. rewrite Hy. cbn [res_bind]. rewrite Hs. cbn [res_bind fst snd].
    rewrite (one_hot_encoding_in_range n [i]);
      [|apply Forall_singleton; rewrite n_is_39; lia|by rewrite n_is_39].
    cbn [res_bind map]. unfold py_getitem. rewrite Hc.
    cbn [res_bind]. unfold np_reshape_row. cbn [concat]. rewrite app_nil_r.
    rewrite (np_concatenate0_ok _ _ (Z.to_nat n));
      [|done|apply Forall_singleton, one_hot_vector_length].
    cbn [res_bind]. reflexivity.
  - reflexivity.
Qed.

Lemma gen_body_select_Raise {prob rng : Type} (predict : list (list Z) -> list (list prob))
    (select : rng -> list prob -> res (Z * rng)) (st : gen_state rng)
    (y_n : list prob) (e : exn) :
  np_last (predict (st_x st)) = Ok y_n ->
  select (st_rng st) y_n = Raise e ->
  gen_body predict select st = Raise e.
Proof. intros Hy Hs. unfold gen_body. rewrite Hy. cbn [res_bind]. by rewrite Hs. Qed.

Lemma gen_loop_Raised {prob rng : Type} (predict : list (list Z) -> list (list prob))
    (select : rng -> list prob -> res (Z * rng)) (P : list prob -> Prop)
    (fuel : nat) (st : gen_state rng) (e : exn) :
  (forall x, x <> [] -> exists y_n, last (predict x) = Some y_n /\ P y_n) ->
  (forall g y_n i g', P y_n -> select g y_n = Ok (i, g') -> 0 <= i < 39) ->
  st_x st <> [] ->
  Forall (fun row => length row = Z.to_nat n) (st_x st) ->
  gen_loop predict select fuel st = Raised e ->
  exists g y_n, P y_n /\ select g y_n = Raise e.
Proof.
  intros Hshape Hsel. revert st.
  induction fuel as [|fuel IH]; intros st Hx Hw; rewrite gen_loop_unfold;
    destruct (st_c st =? DOT); try done.
  destruct (Hshape (st_x st) Hx) as (y_n & Hy & HP).
  assert (np_last (predict (st_x st)) = Ok y_n) as Hlast by (unfold np_last; by rewrite Hy).
  destruct (select (st_rng st) y_n) as [[i g']|e'] eqn:Hs.
  - destruct (gen_body_runs predict select st y_n i g' Hw Hlast Hs) as (st' & -> & Hx');
      [by eapply Hsel|].
    apply IH; rewrite Hx'.
    + by destruct (st_x st).
    + apply Forall_app. split; [done|]. apply Forall_singleton, one_hot_vector_length.
  - rewrite (gen_body_select_Raise predict select st y_n e' Hlast Hs).
    intros [= <-]. eauto.
Qed.

(** X11: what a generation run can raise, given a model that returns, for
    an input that has rows, a last row of 1 to 39 entries.  The greedy run
    raises nothing: after any number of turns it has finished or is still
    going on.  The stochastic run raises only what [np.random.choice] does
    on such a row (when it refuses the probabilities it is given), provided
    the symbol [np.random.choice] draws is one of those it is offered. *)
Theorem generation_raises {prob rng : Type}
    (gt : prob -> prob -> bool)
    (random_choice : rng -> list Z -> list prob -> res (Z * rng))
    (predict : list (list Z) -> list (list prob)) :
  (forall x, x <> [] ->
     exists y_n, last (predict x) = Some y_n /\ (0 < length y_n <= 39)%nat) ->
  (forall fuel (g : rng) e, greedy_generation gt predict fuel g <> Raised e)
  /\ ((forall g a p i g', random_choice g a p = Ok (i, g') -> i ∈ a) ->
      forall fuel g e,
        stochastic_generation predict random_choice fuel g = Raised e ->
        exists g' y_n,
          (0 < length y_n <= 39)%nat
          /\ random_choice g' (py_range 0 n) y_n = Raise e).
Proof.
  intros Hshape.
  assert (Forall (fun row => length row = Z.to_nat n) [zero_row n]) as Hw0.
  { apply Forall_singleton. apply length_replicate. }
  unfold greedy_generation, stochastic_generation, generation. split.
  - intros fuel g e. rewrite gen_init_Ok. intros Hr.
    apply (gen_loop_Raised _ _ (fun y_n => (0 < length y_n <= 39)%nat)) in Hr
      as (g' & y_n & HP & Hs); [|done| |done|done].
    + unfold select_greedy in Hs. destruct (np_argmax_bound gt y_n) as (pos & Hpos & _).
      { intros ->. simpl in HP. lia. }
      by rewrite Hpos in Hs.
    + intros g0 y_n i g' HP. unfold select_greedy.
      destruct (np_argmax_bound gt y_n) as (pos & Hpos & Hr').
      { intros ->. simpl in HP. lia. }
      rewrite Hpos. intros [= <- _]. unfold len in Hr'. lia.
  - intros Hrc fuel g e. rewrite gen_init_Ok. intros Hr.
    apply (gen_loop_Raised _ _ (fun y_n => (0 < length y_n <= 39)%nat)) in Hr
      as (g' & y_n & HP & Hs); [by eauto|done| |done|done].
    intros g0 y_n i g' _ Hi%Hrc. unfold py_range in Hi.
    apply elem_of_seqZ in Hi. rewrite n_is_39 in Hi. lia.
Qed.

Lemma spell_ab_shape (x : list (list Z)) :
  x <> [] -> exists y_n, last (spell_ab x) = Some y_n /\ (0 < length y_n <= 39)%nat.
Proof.
  intros Hx. unfold spell_ab. rewrite last_map.
  destruct (last x) as [row|] eqn:Hl; [|by apply last_None in Hl].
  eexists. split; [reflexivity|].
  destruct (length x) as [|[|[|k]]]; rewrite one_hot_vector_length, n_is_39; lia.
Qed.

Lemma generation_raises_witness :
  (forall fuel g e, greedy_generation Z.gtb spell_ab (rng := list Z) fuel g <> Raised e)
  /\ ((forall g a p i g', scripted_choice g a p = Ok (i, g') -> i ∈ a) ->
      forall fuel g e,
        stochastic_generation spell_ab scripted_choice fuel g = Raised e ->
        exists g' y_n,
          (0 < length y_n <= 39)%nat
          /\ scripted_choice g' (py_range 0 n) y_n = Raise e).
Proof. apply (generation_raises Z.gtb scripted_choice spell_ab spell_ab_shape). Defined.

(** ** The performance cells *)

Lemma for_each_app {S A : Type} (body : S -> A -> res S) (l l' : list A) (s : S) :
  for_each body (l ++ l') s = do s' <- for_each body l s; for_each body l' s'.
Proof.
  revert s. induction l as [|a l IH]; intros s; [done|].
  cbn [app for_each]. destruct (body s a); cbn [res_bind]; [apply IH|done].
Qed.

Lemma seqZ_len_cons {A : Type} (j : Z) (a : A) (l : list A) :
  seqZ j (len (a :: l)) = j :: seqZ (j + 1) (len l).
Proof.
  unfold len. cbn [length]. rewrite seqZ_cons by lia. do 2 f_equal; lia.
Qed.

Lemma py_item_middle {A : Type} (l1 l2 : list A) (a : A) :
  py_item (l1 ++ a :: l2) (len l1) = Ok a.
Proof.
  unfold py_item. rewrite np_index_inside.
  - cbn [res_bind]. unfold len. by rewrite Nat2Z.id, list_lookup_middle.
  - unfold len. rewrite length_app. cbn [length]. lia.
Qed.

Lemma py_item_end {A : Type} (l : list A) : py_item l (len l) = Raise IndexError.
Proof. unfold py_item. rewrite np_index_outside; [done| |]; unfold len; lia. Qed.

Lemma mask_inner (y_preds : list (list Z)) (i : Z) (label seen rest : list Z)
    (mask : list bool) :
  py_item y_preds i = Ok (seen ++ rest) ->
  for_each (fun mask jc =>
              do pred <- py_item y_preds i;
              do ch <- py_item pred jc.1;
              Ok (mask ++ [ch =? jc.2]))
    (zip (seqZ (len seen) (len label)) label) mask
  = if decide (length label <= length rest)%nat
    then Ok (mask ++ zip_with Z.eqb rest label)
    else Raise IndexError.
Proof.
  intros Hpred.
  match goal with |- for_each ?b _ _ = _ => set (body := b) end.
  revert seen rest mask Hpred.
  induction label as [|c label IH]; intros seen rest mask Hpred.
  - rewrite !zip_with_nil_r. cbn [for_each length].
    rewrite decide_True by lia. by rewrite app_nil_r.
  - rewrite seqZ_len_cons. cbn [zip_with for_each]. destruct rest as [|p rest].
    + assert (body mask (len seen, c) = Raise IndexError) as ->.
      { unfold body. cbn [fst snd]. rewrite Hpred. cbn [res_bind].
        by rewrite app_nil_r, py_item_end. }
      by rewrite decide_False by (simpl; lia).
    + assert (body mask (len seen, c) = Ok (mask ++ [p =? c])) as ->.
      { unfold body. cbn [fst snd]. rewrite Hpred. cbn [res_bind].
        by rewrite py_item_middle. }
      cbn [res_bind].
      specialize (IH (seen ++ [p]) rest (mask ++ [p =? c])).
      rewrite <- app_assoc in IH. cbn [app] in IH. specialize (IH Hpred).
      replace (len (seen ++ [p])) with (len seen + 1) in IH
        by (unfold len; rewrite length_app; simpl; lia).
      rewrite IH. cbn [length zip_with].
      destruct (decide (length label <= length rest)%nat).
      * rewrite decide_True by lia. by rewrite <- app_assoc.
      * by rewrite decide_False by lia.
Qed.

Lemma mask_outer (y_male y_preds : list (list Z))
    (done_l cur_l tail_l done_p cur_p tail_p : list (list Z)) (mask : list bool) :
  y_male = done_l ++ cur_l ++ tail_l ->
  y_preds = done_p ++ cur_p ++ tail_p ->
  length done_p = length done_l ->
  Forall2 (fun label pred => (length label <= length pred)%nat) cur_l cur_p ->
  for_each (fun mask i =>
              do label <- py_item y_male i;
              for_each (fun mask jc =>
                          do pred <- py_item y_preds i;
                          do ch <- py_item pred jc.1;
                          Ok (mask ++ [ch =? jc.2]))
                (enumerate label) mask)
    (seqZ (len done_l) (len cur_l)) mask
  = Ok (mask ++ concat (zip_with (fun label pred => zip_with Z.eqb pred label) cur_l cur_p)).
Proof.
  intros Hl Hp Hlen Hall.
  match goal with |- for_each ?b _ _ = _ => set (body := b) end.
  revert done_l done_p mask Hl Hp Hlen.
  induction Hall as [|label pred cur_l cur_p Hle _ IH]; intros done_l done_p mask Hl Hp Hlen.
  - cbn [for_each zip_with concat len length seqZ]. by rewrite app_nil_r.
  - rewrite seqZ_len_cons. cbn [for_each].
    assert (body mask (len done_l) = Ok (mask ++ zip_with Z.eqb pred label)) as ->.
    { unfold body. rewrite Hl at 1. cbn [app]. rewrite py_item_middle. cbn [res_bind].
      unfold enumerate, py_range. rewrite Z.sub_0_r.
      pose proof (mask_inner y_preds (len done_l) label [] pred mask) as Hin.
      change (len (@nil Z)) with 0 in Hin. rewrite Hin.
      - by rewrite decide_True by done.
      - rewrite Hp. cbn [app]. unfold len. rewrite <- Hlen. apply py_item_middle. }
    cbn [res_bind].
    specialize (IH (done_l ++ [label]) (done_p ++ [pred])
                  (mask ++ zip_with Z.eqb pred label)).
    rewrite <- !app_assoc in IH. cbn [app] in IH.
    replace (len (done_l ++ [label])) with (len done_l + 1) in IH
      by (unfold len; rewrite length_app; simpl; lia).
    rewrite IH; [|done|done|rewrite !length_app; simpl; lia].
    cbn [zip_with concat]. by rewrite ?app_assoc.
Qed.

Lemma eqb_all_true (pred label : list Z) :
  Forall (fun b => b = true) (zip_with Z.eqb pred label) /\ (length label <= length pred)%nat
  <-> label `prefix_of` pred.
Proof.
  revert pred. induction label as [|c label IH]; intros pred.
  - rewrite zip_with_nil_r. split; [intros _; apply prefix_nil|intros _; split; [constructor|simpl; lia]].
  - destruct pred as [|p pred].
    + split; [simpl; lia|]. by intros H%prefix_nil_inv.
    + cbn [zip_with length]. split.
      * intros [[Hp Hall]%Forall_cons_1 Hlen]. apply Z.eqb_eq in Hp as ->.
        apply prefix_cons, IH. split; [done|lia].
      * intros H. pose proof (prefix_cons_inv_1 _ _ _ _ H) as ->.
        apply prefix_cons_inv_2, IH in H as [Hall Hlen].
        split; [|lia]. constructor; [apply Z.eqb_refl|done].
Qed.

Lemma mask_rows_spec (y_male y_preds : list (list Z)) :
  Forall2 (fun label pred => (length label <= length pred)%nat) y_male y_preds ->
  let mask := concat (zip_with (fun label pred => zip_with Z.eqb pred label) y_male y_preds) in
  length mask = sum_list (map length y_male)
  /\ (Forall (fun b => b = true) mask
      <-> Forall2 (fun label pred => label `prefix_of` pred) y_male y_preds).
Proof.
  cbn zeta. induction 1 as [|label pred y_male y_preds Hle _ [IH1 IH2]].
  - split; [done|]. split; constructor.
  - cbn [zip_with concat map sum_list]. rewrite length_app, IH1, length_zip_with.
    unfold id. split; [lia|]. rewrite Forall_app, IH2. split.
    + intros [Hrow Hrest]. constructor; [|done]. by apply eqb_all_true.
    + intros (Hp & Hrest)%Forall2_cons_1. split; [|done]. by apply eqb_all_true.
Qed.

(** X12: the loop filling [mask_correct].  When every prediction is at
    least as long as its label, the loop succeeds; [mask_correct] then has
    one entry for every symbol of every label (their number is the sum of
    the labels' lengths), each telling whether the prediction holds that
    symbol at that position, so that all entries are [True] exactly when
    every label is a prefix of its prediction.  When a prediction is shorter
    than its label (those before being long enough), the loop raises
    [IndexError]. *)
Theorem mask_correct_spec (y_male y_preds : list (list Z)) :
  (Forall2 (fun label pred => (length label <= length pred)%nat) y_male y_preds ->
     exists mask,
       mask_correct (len y_male) y_male y_preds = Ok mask
       /\ mask = concat (zip_with (fun label pred => zip_with Z.eqb pred label)
                           y_male y_preds)
       /\ length mask = sum_list (map length y_male)
       /\ (Forall (fun b => b = true) mask
           <-> Forall2 (fun label pred => label `prefix_of` pred) y_male y_preds))
  /\ (forall l1 label l2 p1 pred p2,
        y_male = l1 ++ label :: l2 -> y_preds = p1 ++ pred :: p2 ->
        Forall2 (fun label pred => (length label <= length pred)%nat) l1 p1 ->
        (length pred < length label)%nat ->
        mask_correct (len y_male) y_male y_preds = Raise IndexError).
Proof.
  split.
  - intros Hall. eexists. split_and!; [|reflexivity|by apply mask_rows_spec..].
    unfold mask_correct, py_range. rewrite Z.sub_0_r.
    apply (mask_outer y_male y_preds [] y_male [] [] y_preds []);
      [by rewrite app_nil_r|by rewrite app_nil_r|done|done].
  - intros l1 label l2 p1 pred p2 Hl Hp Hall Hshort.
    unfold mask_correct, py_range. rewrite Z.sub_0_r.
    replace (len y_male) with (len l1 + len (label :: l2))
      by (rewrite Hl; unfold len; rewrite length_app; lia).
    rewrite seqZ_app by (unfold len; lia). rewrite for_each_app.
    rewrite (mask_outer y_male y_preds [] l1 (label :: l2) [] p1 (pred :: p2)); [|done..].
    cbn [res_bind app]. rewrite Z.add_0_l, seqZ_len_cons. cbn [for_each].
    rewrite Hl at 1. rewrite py_item_middle. cbn [res_bind].
    unfold enumerate, py_range. rewrite Z.sub_0_r.
    pose proof (mask_inner y_preds (len l1) label [] pred
                  (concat (zip_with (fun label pred => zip_with Z.eqb pred label) l1 p1))) as Hin.
    change (len (@nil Z)) with 0 in Hin. rewrite Hin.
    + by rewrite decide_False by lia.
    + rewrite Hp. unfold len. rewrite (Forall2_length _ _ _ Hall). apply py_item_middle.
Qed.

Lemma mask_correct_spec_witness :
  exists mask,
    mask_correct (len [[98; 46]; [46]]) [[98; 46]; [46]] [[98; 46; 97]; [97; 46; 46]] = Ok mask
    /\ mask = concat (zip_with (fun label pred => zip_with Z.eqb pred label)
                        [[98; 46]; [46]] [[98; 46; 97]; [97; 46; 46]])
    /\ length mask = sum_list (map length [[98; 46]; [46]])
    /\ (Forall (fun b => b = true) mask
        <-> Forall2 (fun label pred => label `prefix_of` pred)
              [[98; 46]; [46]] [[98; 46; 97]; [97; 46; 46]]).
Proof.
  apply (proj1 (mask_correct_spec [[98; 46]; [46]] [[98; 46; 97]; [97; 46; 46]])).
  repeat constructor; simpl; lia.
Defined.

Lemma starts_with_spec (a b : list Z) :
  starts_with a b = true <-> a `prefix_of` b.
Proof.
  revert b. induction a as [|x a IH]; intros b; cbn [starts_with].
  - split; [intros _; apply prefix_nil|done].
  - destruct b as [|y b].
    + split; [done|]. by intros H%prefix_nil_inv.
    + rewrite andb_true_iff, Z.eqb_eq, IH. split.
      * intros [-> H]. by apply prefix_cons.
      * intros H. split; [by apply prefix_cons_inv_1 in H|by apply prefix_cons_inv_2 in H].
Qed.

Lemma py_in_spec (a b : list Z) :
  py_in a b = true <-> exists pre post, b = pre ++ a ++ post.
Proof.
  induction b as [|y b IH]; cbn [py_in]; rewrite orb_true_iff, starts_with_spec.
  - split.
    + intros [[post ->]|?]; [|done]. by exists [], post.
    + intros (pre & post & H). left.
      symmetry in H. apply app_eq_nil in H as [-> H]. by exists post.
  - rewrite IH. split.
    + intros [[post ->]|(pre & post & ->)]; [by exists [], post|by exists (y :: pre), post].
    + intros ([|z pre] & post & H).
      * left. by exists post.
      * right. injection H as -> ->. by exists pre, post.
Qed.

Lemma words_outer (y_male y_preds : list (list Z))
    (done_l rest_l done_p rest_p : list (list Z)) (done_m : list bool) :
  y_male = done_l ++ rest_l ->
  y_preds = done_p ++ rest_p ->
  length done_p = length done_l ->
  length done_m = length done_l ->
  length rest_p = length rest_l ->
  for_each (fun mask i =>
              do pred <- py_item y_preds i;
              do label <- py_item y_male i;
              let orig := take (length label - 1) label in
              do p <- np_index (len mask) i;
              Ok (<[p := py_in orig pred]> mask))
    (seqZ (len done_l) (len rest_l)) (done_m ++ replicate (length rest_l) false)
  = Ok (done_m ++ zip_with (fun label pred => py_in (take (length label - 1) label) pred)
                    rest_l rest_p).
Proof.
  match goal with |- context [for_each ?b _ _ = _] => set (body := b) end.
  revert done_l rest_p done_p done_m.
  induction rest_l as [|label rest_l IH]; intros done_l rest_p done_p done_m Hl Hp Hlp Hlm Hlr.
  - destruct rest_p; [|done]. by cbn.
  - destruct rest_p as [|pred rest_p]; [done|].
    rewrite seqZ_len_cons. cbn [for_each length replicate].
    assert (body (done_m ++ false :: replicate (length rest_l) false) (len done_l)
            = Ok ((done_m ++ [py_in (take (length label - 1) label) pred])
                    ++ replicate (length rest_l) false)) as ->.
    { assert (py_item y_preds (len done_l) = Ok pred) as Hpi.
      { rewrite Hp. replace (len done_l) with (len done_p) by (unfold len; lia).
        apply py_item_middle. }
      assert (py_item y_male (len done_l) = Ok label) as Hli.
      { rewrite Hl. apply py_item_middle. }
      unfold body. rewrite Hpi. cbn [res_bind]. rewrite Hli. cbn [res_bind].
      rewrite np_index_inside.
      2: { unfold len. rewrite length_app. cbn [length]. lia. }
      cbn [res_bind]. unfold len. rewrite Nat2Z.id, <- Hlm.
      rewrite insert_app_r_alt, Nat.sub_diag by done. cbn [insert list_insert].
      by rewrite <- app_assoc. }
    cbn [res_bind].
    specialize (IH (done_l ++ [label]) rest_p (done_p ++ [pred])
                  (done_m ++ [py_in (take (length label - 1) label) pred])).
    rewrite <- !app_assoc in IH. cbn [app] in IH.
    replace (len (done_l ++ [label])) with (len done_l + 1) in IH
      by (unfold len; rewrite length_app; simpl; lia).
    rewrite <- app_assoc. cbn [app].
    rewrite IH; [done|done|done|..]; rewrite ?length_app; simpl in *; lia.
Qed.

(** X13: the loop filling [mask_correct_words], given as many predictions
    as labels.  It succeeds with one entry per name; the entry is [True]
    exactly when the label without its last symbol (the dot) occurs somewhere
    in the prediction, at any offset and not only at its start.  So a name
    of a single letter, whose label is the dot alone, always counts as
    predicted correctly; and so does every name whose label is a prefix of
    its prediction, that is every name [mask_correct] finds right symbol by
    symbol. *)
Theorem mask_correct_words_spec (y_male y_preds : list (list Z)) :
  length y_preds = length y_male ->
  exists mask,
    mask_correct_words (len y_male) y_male y_preds = Ok mask
    /\ length mask = length y_male
    /\ forall i label pred, y_male !! i = Some label -> y_preds !! i = Some pred ->
         exists b, mask !! i = Some b
           /\ (b = true <-> exists pre post,
                              pred = pre ++ take (length label - 1) label ++ post)
           /\ ((length label <= 1)%nat -> b = true)
           /\ (label `prefix_of` pred -> b = true).
Proof.
  intros Hlen. eexists. split_and!.
  - unfold mask_correct_words, py_range. rewrite Z.sub_0_r.
    replace (Z.to_nat (len y_male)) with (length y_male) by (unfold len; lia).
    apply (words_outer y_male y_preds [] y_male [] y_preds []); done.
  - cbn [app]. rewrite length_zip_with. lia.
  - intros i label pred Hl Hp. cbn [app]. eexists. split_and!.
    + apply lookup_zip_with_Some. eauto.
    + apply py_in_spec.
    + intros Hk. apply py_in_spec. exists [], pred.
      by replace (length label - 1)%nat with 0%nat by lia.
    + intros [post ->]. apply py_in_spec.
      exists [], (drop (length label - 1) label ++ post).
      cbn [app]. by rewrite app_assoc, take_drop.
Qed.

Lemma mask_correct_words_spec_witness :
  exists mask,
    mask_correct_words (len [[98; 46]; [46]]) [[98; 46]; [46]] [[97; 98; 97]; [97; 97; 97]]
    = Ok mask
    /\ mask = [true; true].
Proof.
  destruct (mask_correct_words_spec [[98; 46]; [46]] [[97; 98; 97]; [97; 97; 97]] eq_refl)
    as (mask & Hm & _).
  exists mask. split; [done|]. vm_compute in Hm. by injection Hm as <-.
Defined.

(** X14: the performance cells on a prepared corpus.  Whatever a model
    predicts for the padded batch, as long as it predicts [timesteps] rows
    of 1 to 39 entries for each name, [decode_list] turns the predictions
    into words, and the loops filling [mask_correct] and
    [mask_correct_words] do not raise; [mask_correct] has as many entries
    as the names have symbols altogether, and [mask_correct_words] one per
    name. *)
Theorem performance_cells {prob : Type} (gt : prob -> prob -> bool)
    (lower : list Z -> list Z) (names : list (list Z))
    (y_preds_encoded : list (list (list prob))) (p : prepared) :
  Forall (fun name => lower name <> []
                      /\ length (lower name) = length name
                      /\ Forall (fun ch => ch ∈ chars) (lower name)) names ->
  prepare lower names = Ok p ->
  length y_preds_encoded = length names ->
  Forall (fun rows => length rows = Z.to_nat (timesteps p)
                      /\ Forall (fun row => (0 < length row <= 39)%nat) rows)
    y_preds_encoded ->
  exists y_preds mask mask_words,
    decode_list gt y_preds_encoded map_int_to_char = Ok y_preds
    /\ mask_correct (m p) (y_male p) y_preds = Ok mask
    /\ length mask = sum_list (map length (X_male p))
    /\ mask_correct_words (m p) (y_male p) y_preds = Ok mask_words
    /\ length mask_words = length names.
Proof.
  intros Hnames Hp Hlen Hshape.
  assert (names <> []) as Hne by (intros ->; done).
  destruct (prepare_spec lower names Hne Hnames) as (longest & ints & Hin & Hle & _ & Hp').
  rewrite Hp in Hp'. injection Hp' as ->.
  cbn [m timesteps X_male y_male] in *.
  destruct (decode_list_words gt y_preds_encoded) as (y_preds & Hd & Hwords).
  { eapply Forall_impl; [done|]. by intros rows [_ ?]. }
  pose proof (Forall2_length _ _ _ Hwords) as Hlen'.
  assert (Forall (fun pred => length pred = length longest) y_preds) as Hpl.
  { apply Forall_forall. intros pred [i Hi]%list_elem_of_lookup.
    destruct (Forall2_lookup_r _ _ _ _ _ Hwords Hi) as (rows & Hrows & -> & _).
    apply list_elem_of_lookup_2 in Hrows.
    destruct (proj1 (Forall_forall _ _) Hshape rows Hrows) as [-> _].
    unfold len. by rewrite Nat2Z.id. }
  assert (Forall2 (fun label pred => (length label <= length pred)%nat)
            (map (shifted DOT) (map lower names)) y_preds) as Hfit.
  { apply Forall2_same_length_lookup_2.
    - rewrite !length_map. lia.
    - intros i label pred Hl Hpr. rewrite !lookup_map in Hl.
      destruct (names !! i) as [name|] eqn:Hname; [|done]. injection Hl as <-.
      apply list_elem_of_lookup_2 in Hname, Hpr.
      destruct (proj1 (Forall_forall _ _) Hnames name Hname) as (Hnn & Hl & _).
      destruct (shifted_spec DOT (lower name) Hnn) as (-> & _).
      rewrite (proj1 (Forall_forall _ _) Hpl pred Hpr), Hl.
      by apply (proj1 (Forall_forall _ _) Hle name). }
  exists y_preds. eexists _, _. split_and!; [done| | | |].
  - unfold mask_correct, py_range. rewrite Z.sub_0_r.
    replace (len names) with (len (map (shifted DOT) (map lower names)))
      by (unfold len; by rewrite !length_map).
    apply (mask_outer _ y_preds [] _ [] [] y_preds []);
      [by rewrite app_nil_r|by rewrite app_nil_r|done|done].
  - cbn [app]. rewrite (proj1 (mask_rows_spec _ _ Hfit)), !map_map. f_equal.
    apply map_ext_Forall. eapply Forall_impl; [exact Hnames|].
    intros name (Hnn & _). cbn beta. by destruct (shifted_spec DOT (lower name) Hnn) as (-> & _).
  - unfold mask_correct_words, py_range. rewrite Z.sub_0_r.
    replace (Z.to_nat (len names)) with (length (map (shifted DOT) (map lower names)))
      by (unfold len; rewrite !length_map; lia).
    replace (len names) with (len (map (shifted DOT) (map lower names)))
      by (unfold len; by rewrite !length_map).
    apply (words_outer _ y_preds [] _ [] y_preds []); try done.
    cbn [app]. rewrite !length_map. lia.
  - cbn [app]. rewrite length_zip_with, !length_map. lia.
Qed.

Lemma performance_cells_witness :
  exists p y_preds,
    prepare (fun name => name) [[97; 98]; [99]] = Ok p
    /\ decode_list Z.gtb [[[0; 1]; [1; 0]]; [[0; 1]; [0; 1]]] map_int_to_char = Ok y_preds
    /\ mask_correct (m p) (y_male p) y_preds = Ok [true; false; false]
    /\ mask_correct_words (m p) (y_male p) y_preds = Ok [true; true].
Proof.
  destruct (prepare (fun name => name) [[97; 98]; [99]]) as [p|] eqn:Hp;
    [|by vm_compute in Hp].
  destruct (performance_cells Z.gtb (fun name => name) [[97; 98]; [99]]
              [[[0; 1]; [1; 0]]; [[0; 1]; [0; 1]]] p)
    as (y_preds & mask & mask_words & Hd & Hm & _ & Hw & _).
  - repeat constructor; try done; apply list_elem_of_In; vm_compute; tauto.
  - done.
  - done.
  - vm_compute in Hp. injection Hp as <-. cbn [timesteps].
    repeat constructor; simpl; lia.
  - exists p, y_preds. split; [reflexivity|]. split; [exact Hd|].
    vm_compute in Hd. injection Hd as <-. vm_compute in Hp. injection Hp as <-.
    split; by vm_compute.
Defined.

(** ** Determinism of the generation runs *)

Lemma gen_body_same {prob rng1 rng2 : Type} (R : rng1 -> rng2 -> Prop)
    (predict1 predict2 : list (list Z) -> list (list prob))
    (select1 : rng1 -> list prob -> res (Z * rng1))
    (select2 : rng2 -> list prob -> res (Z * rng2))
    (s1 : gen_state rng1) (s2 : gen_state rng2) :
  (forall x, predict1 x = predict2 x) ->
  (forall g1 g2 y_n, R g1 g2 -> same_result R (select1 g1 y_n) (select2 g2 y_n)) ->
  same_state R s1 s2 ->
  match gen_body predict1 select1 s1, gen_body predict2 select2 s2 with
  | Ok s1', Ok s2' => same_state R s1' s2'
  | Raise e1, Raise e2 => e1 = e2
  | _, _ => False
  end.
Proof.
  intros Hext Hsel (Hx & Hw & Hc & Hg). unfold gen_body.
  rewrite Hext, Hx, Hw. destruct (np_last (predict2 (st_x s2))) as [y_n|e];
    cbn [res_bind]; [|reflexivity].
  specialize (Hsel (st_rng s1) (st_rng s2) y_n Hg). unfold same_result in Hsel.
  destruct (select1 (st_rng s1) y_n) as [[i1 h1]|e1];
    destruct (select2 (st_rng s2) y_n) as [[i2 h2]|e2];
    cbn [res_bind fst snd] in *; [|destruct Hsel|destruct Hsel|exact Hsel].
  destruct Hsel as [-> Hh].
  destruct (one_hot_encoding [i2] n) as [encoded|e]; cbn [res_bind]; [|reflexivity].
  destruct (py_getitem map_int_to_char i2) as [c|e]; cbn [res_bind]; [|reflexivity].
  destruct (np_concatenate0 (st_x s2) (np_reshape_row encoded)) as [x|e];
    cbn [res_bind]; [|reflexivity].
  unfold same_state. cbn [st_x st_word st_c st_rng].
  split; [reflexivity|]. split; [reflexivity|]. split; [reflexivity|exact Hh].
Qed.

Lemma gen_loop_same {prob rng1 rng2 : Type} (R : rng1 -> rng2 -> Prop)
    (predict1 predict2 : list (list Z) -> list (list prob))
    (select1 : rng1 -> list prob -> res (Z * rng1))
    (select2 : rng2 -> list prob -> res (Z * rng2))
    (fuel : nat) (s1 : gen_state rng1) (s2 : gen_state rng2) :
  (forall x, predict1 x = predict2 x) ->
  (forall g1 g2 y_n, R g1 g2 -> same_result R (select1 g1 y_n) (select2 g2 y_n)) ->
  same_state R s1 s2 ->
  same_outcome R (gen_loop predict1 select1 fuel s1) (gen_loop predict2 select2 fuel s2).
Proof.
  intros Hext Hsel. revert s1 s2. induction fuel as [|fuel IH]; intros s1 s2 Hs;
    rewrite !gen_loop_unfold; pose proof Hs as (_ & Hw & Hc & _); rewrite Hc;
    destruct (st_c s2 =? DOT); cbn [same_outcome]; try assumption.
  pose proof (gen_body_same R predict1 predict2 select1 select2 s1 s2 Hext Hsel Hs) as Hb.
  destruct (gen_body predict1 select1 s1) as [s1'|e1];
    destruct (gen_body predict2 select2 s2) as [s2'|e2];
    [by apply IH|destruct Hb|destruct Hb|exact Hb].
Qed.

Lemma gen_loop_transfer {prob rng1 rng2 : Type} (R : rng1 -> rng2 -> Prop)
    (predict1 predict2 : list (list Z) -> list (list prob))
    (select1 : rng1 -> list prob -> res (Z * rng1))
    (select2 : rng2 -> list prob -> res (Z * rng2))
    (fuel fuel' : nat) (s1 : gen_state rng1) (s2 : gen_state rng2) (w : list Z) :
  (forall x, predict1 x = predict2 x) ->
  (forall g1 g2 y_n, R g1 g2 -> same_result R (select1 g1 y_n) (select2 g2 y_n)) ->
  same_state R s1 s2 ->
  gen_loop predict1 select1 fuel s1 = Finished w ->
  (fuel <= fuel')%nat ->
  gen_loop predict2 select2 fuel' s2 = Finished w.
Proof.
  intros Hext Hsel Hs Hw Hle.
  pose proof (gen_loop_same R predict1 predict2 select1 select2 fuel s1 s2 Hext Hsel Hs) as Hsame.
  rewrite Hw in Hsame. unfold same_outcome in Hsame.
  destruct (gen_loop predict2 select2 fuel s2) as [w2| |] eqn:H2; try done. subst w2.
  by apply (gen_loop_stable predict2 select2 fuel fuel' s2 Hle).
Qed.

Lemma select_greedy_same {prob rng1 rng2 : Type} (gt : prob -> prob -> bool)
    (g1 : rng1) (g2 : rng2) (y_n : list prob) :
  same_result (fun _ _ => True) (select_greedy gt g1 y_n) (select_greedy gt g2 y_n).
Proof. unfold select_greedy, same_result. by destruct (np_argmax gt y_n). Qed.

(** Every symbol of the word of a run was picked from the model's prediction
    for the symbols before it. *)
Lemma gen_loop_picked {prob rng : Type} (predict : list (list Z) -> list (list prob))
    (select : rng -> list prob -> res (Z * rng)) (pick : list prob -> Z -> Prop)
    (fuel : nat) (g : rng) :
  (forall h y_n i h', select h y_n = Ok (i, h') -> pick y_n i) ->
  (forall st, generation predict select fuel g = Running st ->
     forall k ch, st_word st !! k = Some ch -> picked_at predict pick (st_word st) k ch)
  /\ (forall w, generation predict select fuel g = Finished w ->
     forall k ch, w !! k = Some ch -> picked_at predict pick w k ch).
Proof.
  intros Hpick. unfold generation. rewrite gen_init_Ok.
  set (st0 := {| st_x := [zero_row n]; st_word := []; st_c := 45; st_rng := g |}).
  set (I := fun st : gen_state rng =>
              (exists word_int,
                 encode_word_to_int (st_word st) map_char_to_int = Ok word_int
                 /\ st_x st = zero_row n :: map (one_hot_vector n) word_int)
              /\ forall k ch, st_word st !! k = Some ch ->
                   picked_at predict pick (st_word st) k ch).
  assert (forall s s', I s -> gen_body predict select s = Ok s' -> I s') as Hstep.
  { intros s s' [(word_int & He & Hx) Hall] Hb.
    destruct (gen_body_Ok _ _ _ _ Hb) as (y_n & i & Hy & Hs & Hi & Hc & Hx' & Hw).
    split.
    - exists (word_int ++ [i]). rewrite Hw, encode_app, He. cbn [encode_word_to_int res_bind].
      unfold py_getitem. rewrite Hc. cbn [res_bind]. split; [done|].
      by rewrite Hx', Hx, map_app.
    - intros k ch Hk. rewrite Hw in Hk |- *.
      apply lookup_app_Some in Hk as [Hk|[Hlen Hk]].
      + destruct (Hall k ch Hk) as (wi & y & j & H1 & H2 & H3 & H4).
        exists wi, y, j. split_and!; try done.
        rewrite take_app_le; [done|]. apply lookup_lt_Some in Hk. lia.
      + apply list_lookup_singleton_Some in Hk as [Hk <-].
        assert (k = length (st_word s)) as -> by lia.
        exists word_int, y_n, i. rewrite take_app_length. split_and!; try done.
        * by rewrite <- Hx.
        * by eapply Hpick.
        * by apply mappings_inverse. }
  assert (I st0) as H0. { split; [by exists []|]. intros k ch Hk. done. }
  split.
  - intros st Hrun. by apply (gen_loop_invariant predict select I fuel st0 st).
  - intros w Hw.
    destruct (gen_loop_Finished predict select fuel st0 w) as (j & st & st' & _ & Hrun & Hb & _ & ->);
      [done|done|].
    pose proof (gen_loop_invariant predict select I j st0 st Hstep H0 Hrun) as Hst.
    by apply (Hstep st st' Hst Hb).
Qed.

(** C7: generation is deterministic.  Two greedy runs on models that
    predict the same come to the same after any number of turns, whatever
    the random generators and their states: the same word printed, the same
    exception, or the same [x], [word] and [c] while going on; when one has
    finished the other finishes with the same word, given as many turns or
    more; and the word owes nothing to chance, each of its symbols being the
    arg-max of the model's prediction for the symbols before it.  Two
    stochastic runs on such models that draw from the same random source
    (from two sources that draw alike) come to the same likewise; each symbol
    of their word is a draw made on the model's prediction for the symbols
    before it.  While a run is going on after [fuel] turns its word has
    [fuel] symbols. *)
Theorem generation_deterministic {prob rng1 rng2 : Type}
    (gt : prob -> prob -> bool)
    (predict1 predict2 : list (list Z) -> list (list prob))
    (random_choice1 : rng1 -> list Z -> list prob -> res (Z * rng1))
    (random_choice2 : rng2 -> list Z -> list prob -> res (Z * rng2))
    (R : rng1 -> rng2 -> Prop) (g1 : rng1) (g2 : rng2) (fuel : nat) :
  (forall x, predict1 x = predict2 x) ->
  (same_outcome (fun _ _ => True)
     (greedy_generation gt predict1 fuel g1) (greedy_generation gt predict2 fuel g2)
   /\ (forall w fuel', greedy_generation gt predict1 fuel g1 = Finished w ->
         (fuel <= fuel')%nat -> greedy_generation gt predict2 fuel' g2 = Finished w)
   /\ (forall st, greedy_generation gt predict1 fuel g1 = Running st ->
         length (st_word st) = fuel
         /\ forall k ch, st_word st !! k = Some ch ->
              picked_at predict1 (fun y_n i => np_argmax gt y_n = Ok i) (st_word st) k ch)
   /\ (forall w, greedy_generation gt predict1 fuel g1 = Finished w ->
         forall k ch, w !! k = Some ch ->
           picked_at predict1 (fun y_n i => np_argmax gt y_n = Ok i) w k ch))
  /\ (same_draws R random_choice1 random_choice2 -> R g1 g2 ->
      same_outcome R (stochastic_generation predict1 random_choice1 fuel g1)
        (stochastic_generation predict2 random_choice2 fuel g2)
      /\ (forall w fuel', stochastic_generation predict1 random_choice1 fuel g1 = Finished w ->
            (fuel <= fuel')%nat ->
            stochastic_generation predict2 random_choice2 fuel' g2 = Finished w))
  /\ (forall st, stochastic_generation predict1 random_choice1 fuel g1 = Running st ->
        length (st_word st) = fuel
        /\ forall k ch, st_word st !! k = Some ch ->
             picked_at predict1
               (fun y_n i => exists h h', random_choice1 h (py_range 0 n) y_n = Ok (i, h'))
               (st_word st) k ch)
  /\ (forall w, stochastic_generation predict1 random_choice1 fuel g1 = Finished w ->
        forall k ch, w !! k = Some ch ->
          picked_at predict1
            (fun y_n i => exists h h', random_choice1 h (py_range 0 n) y_n = Ok (i, h'))
            w k ch).
Proof.
  intros Hext.
  assert (forall (select : rng1 -> list prob -> res (Z * rng1)) st,
            generation predict1 select fuel g1 = Running st -> length (st_word st) = fuel)
    as Hlen.
  { intros select st. unfold generation. rewrite gen_init_Ok.
    intros [_ Hl]%gen_loop_Running. by rewrite Hl. }
  destruct (gen_loop_picked predict1 (select_greedy gt)
              (fun y_n i => np_argmax gt y_n = Ok i) fuel g1) as [Gr Gf].
  { intros h y_n i h'. unfold select_greedy.
    destruct (np_argmax gt y_n); cbn [res_bind]; [|done]. by intros [= -> _]. }
  destruct (gen_loop_picked predict1 (select_stochastic random_choice1)
              (fun y_n i => exists h h', random_choice1 h (py_range 0 n) y_n = Ok (i, h'))
              fuel g1) as [Sr Sf].
  { intros h y_n i h' Hs. by exists h, h'. }
  split_and!.
  - unfold greedy_generation, generation. rewrite !gen_init_Ok.
    apply gen_loop_same; [done| |done]. intros h1 h2 y_n _. apply select_greedy_same.
  - intros w fuel'. unfold greedy_generation, generation. rewrite !gen_init_Ok.
    apply (gen_loop_transfer (fun _ _ => True)); [done| |done].
    intros h1 h2 y_n _. apply select_greedy_same.
  - intros st Hrun. split; [by apply (Hlen (select_greedy gt))|by apply Gr].
  - exact Gf.
  - intros Hdraws Hg. unfold stochastic_generation, generation. rewrite !gen_init_Ok.
    assert (forall h1 h2 (y_n : list prob), R h1 h2 ->
              same_result R (select_stochastic random_choice1 h1 y_n)
                (select_stochastic random_choice2 h2 y_n)) as Hsel.
    { intros h1 h2 y_n Hh. by apply Hdraws. }
    split.
    + by apply gen_loop_same.
    + intros w fuel'. by apply (gen_loop_transfer R).
  - intros st Hrun. split; [by apply (Hlen (select_stochastic random_choice1))|by apply Sr].
  - exact Sf.
Qed.

Lemma scripted_same_draws : same_draws eq scripted_choice scripted_choice.
Proof.
  intros g1 g2 a p ->. unfold same_result, scripted_choice.
  destruct g2; [reflexivity|]. split; reflexivity.
Qed.

Lemma generation_deterministic_witness :
  greedy_generation Z.gtb (fun x => spell_ab x) 9 [7; 7] = Finished [97; 98; 46]
  /\ stochastic_generation (fun x => spell_ab x) scripted_choice 9 [0; 1; 37]
     = Finished [97; 98; 46].
Proof.
  destruct (generation_deterministic Z.gtb spell_ab (fun x => spell_ab x)
              scripted_choice scripted_choice eq [0; 1; 37] [0; 1; 37] 5
              (fun x => eq_refl)) as ((_ & _ & _) & Hs & _).
  destruct (generation_deterministic Z.gtb spell_ab (fun x => spell_ab x)
              scripted_choice scripted_choice eq [0; 1; 37] [7; 7] 5
              (fun x => eq_refl)) as ((_ & Hg & _) & _).
  split.
  - apply (Hg _ 9%nat); [by vm_compute|lia].
  - destruct (Hs scripted_same_draws eq_refl) as [_ Hs'].
    apply (Hs' _ 9%nat); [by vm_compute|lia].
Defined.

(** What the fixed random source is needed for: two stochastic runs on one
    model whose generators draw differently print different words. *)
Lemma stochastic_generation_follows_the_draws :
  stochastic_generation spell_ab scripted_choice 5 [37] = Finished [46]
  /\ stochastic_generation spell_ab scripted_choice 5 [0; 37] = Finished [97; 46].
Proof. by vm_compute. Qed.
